(** * TimingManager: a shallow embedding of [timing.js]

    The engine of [timing.js] consumes a timing table exported by animaker,
    lets the caller bind actions to animation labels, and plays the table back
    either event by event ([play]) or frame by frame ([frameApply]).

    Modelling choices.
    - A JavaScript number is an IEEE 754 binary64 value ([float], with the
      primitive operations, which round as the source does); [undefined]
      arguments are [None].  The idiom [x || d] replaces every falsy [x]
      (absent, zero of either sign, or NaN) by the default [d].
    - The object [callbacks] is the finite map of the properties it owns
      together with what it inherits: it starts as [{}], so that a lookup
      [callbacks[l]] that finds no own property yields the member of
      [Object.prototype] of that name, when there is one.  The argument [fns]
      of [register] is the finite map of its labels to functions.  A function
      value is an opaque reference and is always truthy.  An assignment to
      the label [__proto__], which in JavaScript replaces the prototype of
      [callbacks], is kept as an ordinary assignment; the statements that
      depend on the difference exclude that label.
    - The closure variables of the constructor ([timingInfo], [timeUnit],
      [callbacks], [promises]) are the fields of one state record, together
      with the part of the host the engine talks to: the store of promises it
      created, the console, and the record of the calls made by fired promises.
    - A method is a computation in a state monad with exceptions: a [throw]
      leaves the state as it is at that point.  The loops of [frameApply] take
      fuel, the number of turns they may make: a call that needs more turns
      than it was given ends in [OutOfFuel], which stands for a call that is
      still running. *)

From Stdlib Require Import Floats ZArith Lia.
From stdpp Require Import gmap strings list.

(** ** Data *)

(** One atomic animation of the timing table: [{label, start, durn}]. *)
Record entry := Entry { label : string; start : float; durn : float }.

(** The validated [timeUnit]: one of ["ms"], ["s"], ["m"]. *)
Inductive TimeUnit := U_ms | U_s | U_m.

(** A registered action: a reference to a JavaScript function. *)
Inductive callback := Fn (id : nat).

#[global] Instance callback_eq_dec : EqDecision callback.
Proof. solve_decision. Defined.

(** What [callbacks[l]] can be: an action that was registered, or the member
    of [Object.prototype] of that name. *)
Inductive value := own (f : callback) | inherited (name : string).

(** [new Error(message)]. *)
Inductive error := Error (message : string).

Definition msg_timeUnit : string :=
  "Invalid 'timeUnit': Must be one of 'ms', 's', 'm'"%string.
Definition msg_noActions : string :=
  "No actions assigned to animations, see 'register()'"%string.
Definition msg_fps : string := "Frames per second must be > 0"%string.
Definition msg_ignoring (l : string) : string :=
  String.append "Ignoring playback of animation: " l.
Definition msg_cancel : string := "User initiated animation cancellation"%string.

(** A promise made by [Promise.delay(d).cancellable().then(function () {
    callbacks[anim.label](anim); })].  The handler is the same closure at both
    places that create one, so a promise is described by its delay in
    milliseconds, the entry [anim] the closure captured, and its status. *)
Inductive status := Pending | Fired | Cancelled.

#[global] Instance status_eq_dec : EqDecision status.
Proof. solve_decision. Defined.

Record promise := Promise { delay : float; anim : entry; settled : status }.

(** A call [callbacks[anim.label](anim)] made by the handler of promise
    [by_promise]. *)
Record call := Call { by_promise : nat; callee : value; arg : entry }.

Record state := State {
  timingInfo : list entry;
  timeUnit : TimeUnit;
  callbacks : gmap string callback;   (* the own properties of [callbacks] *)
  promises : list nat;          (* references into [heap] *)
  heap : list promise;          (* every promise created so far *)
  console : list string;        (* console.warn *)
  calls : list call             (* calls made so far *)
}.

Definition set_callbacks (c : gmap string callback) (σ : state) : state :=
  State (timingInfo σ) (timeUnit σ) c (promises σ) (heap σ) (console σ) (calls σ).
Definition set_promises (p : list nat) (σ : state) : state :=
  State (timingInfo σ) (timeUnit σ) (callbacks σ) p (heap σ) (console σ) (calls σ).
Definition set_heap (h : list promise) (σ : state) : state :=
  State (timingInfo σ) (timeUnit σ) (callbacks σ) (promises σ) h (console σ) (calls σ).
Definition set_console (c : list string) (σ : state) : state :=
  State (timingInfo σ) (timeUnit σ) (callbacks σ) (promises σ) (heap σ) c (calls σ).
Definition set_calls (c : list call) (σ : state) : state :=
  State (timingInfo σ) (timeUnit σ) (callbacks σ) (promises σ) (heap σ) (console σ) c.

(** ** The monad of methods *)

(** How a method ends: it returns, it throws, or a loop used up its fuel. *)
Inductive completion (A : Type) :=
  | Normal (a : A)
  | Throw (e : error)
  | OutOfFuel.
Arguments Normal {A} a.
Arguments Throw {A} e.
Arguments OutOfFuel {A}.

Definition M (A : Type) : Type := state -> completion A * state.

Definition ret {A} (a : A) : M A := fun σ => (Normal a, σ).
Definition bind {A B} (c : M A) (k : A -> M B) : M B :=
  fun σ =>
    match c σ with
    | (Normal a, σ') => k a σ'
    | (Throw e, σ') => (Throw e, σ')
    | (OutOfFuel, σ') => (OutOfFuel, σ')
    end.
Definition throw {A} (e : error) : M A := fun σ => (Throw e, σ).
Definition gets {A} (f : state -> A) : M A := fun σ => (Normal (f σ), σ).
Definition modify (f : state -> state) : M unit := fun σ => (Normal tt, f σ).

#[global] Instance M_ret : MRet M := @ret.
#[global] Instance M_bind : MBind M := fun A B k c => bind c k.

(** [_.each(l, f)] *)
Fixpoint each {A} (l : list A) (f : A -> M unit) : M unit :=
  match l with
  | [] => ret tt
  | x :: l' => f x ;; each l' f
  end.

(** ** Numbers *)

(** A number is falsy when it is [0], [-0] or [NaN]. *)
Definition falsy (x : float) : bool := (x =? 0)%float || is_nan x.

(** [x || d] on a number argument. *)
Definition or_default (x : option float) (d : float) : float :=
  match x with
  | Some v => if falsy v then d else v
  | None => d
  end.

(** [Math.max(a, b)]: [NaN] if either is [NaN], and [+0] is larger than
    [-0]. *)
Definition Math_max (a b : float) : float :=
  if is_nan a || is_nan b then nan
  else if (a <? b)%float then b
  else if (b <? a)%float then a
  else match classify a with NZero => b | _ => a end.

(** ** The constructor *)

(** [timingInfo] is one entry or an array of entries. *)
Inductive timingArg := One (e : entry) | Array (l : list entry).

Definition parse_timeUnit (u : string) : option TimeUnit :=
  if String.eqb u "ms" then Some U_ms
  else if String.eqb u "s" then Some U_s
  else if String.eqb u "m" then Some U_m
  else None.

Definition TimingManager (timingInfo : timingArg) (timeUnit : option string)
  : error + state :=
  let timingInfo :=
    match timingInfo with One e => [e] | Array l => l end in
  let timeUnit :=
    match timeUnit with
    | Some EmptyString | None => "ms"%string
    | Some u => u
    end in
  match parse_timeUnit timeUnit with
  | None => inl (Error msg_timeUnit)
  | Some u => inr (State timingInfo u ∅ [] [] [] [])
  end.

(** [toMs]: converts a unit of time to milliseconds.  The final [throw] of the
    source is unreachable: [timeUnit] was validated by the constructor and is
    never assigned again. *)
Definition toMs (timeUnit : TimeUnit) (t : float) : float :=
  match timeUnit with
  | U_ms => t
  | U_s => t * 1000
  | U_m => t * 60 * 1000
  end%float.

(** ** The registry *)

(** The names that [{}] inherits from [Object.prototype]. *)
Definition Object_prototype : list string :=
  [ "constructor"; "toString"; "toLocaleString"; "valueOf";
    "hasOwnProperty"; "isPrototypeOf"; "propertyIsEnumerable";
    "__defineGetter__"; "__defineSetter__";
    "__lookupGetter__"; "__lookupSetter__"; "__proto__" ]%string.

(** [callbacks[l]]: the own property, or else the inherited member;
    [undefined] is [None]. *)
Definition get (cbs : gmap string callback) (l : string) : option value :=
  match cbs !! l with
  | Some f => Some (own f)
  | None =>
      if bool_decide (l ∈ Object_prototype) then Some (inherited l) else None
  end.

(** The inherited members are functions, except [__proto__], which is the
    object [Object.prototype] itself. *)
Definition callable (v : value) : bool :=
  match v with
  | own _ => true
  | inherited name => negb (String.eqb name "__proto__")
  end.

(** [overwrite] is tested for truthiness; an absent argument is falsy. *)
Definition truthy (b : option bool) : bool :=
  match b with Some true => true | _ => false end.

(** One turn of [for (var f in fns)]:
    [if (! callbacks[f] || overwrite) callbacks[f] = fns[f];]
    Every value that [callbacks[f]] can have is truthy. *)
Definition register_one (overwrite : option bool) (f : string) (fn : callback)
    (cbs : gmap string callback) : gmap string callback :=
  if negb (bool_decide (is_Some (get cbs f))) || truthy overwrite
  then <[f := fn]> cbs
  else cbs.

Definition register (fns : gmap string callback) (overwrite : option bool)
  : M unit :=
  modify (fun σ =>
    set_callbacks (map_fold (register_one overwrite) (callbacks σ) fns) σ).

(** [ensureNonEmpty]: [_.isEmpty(callbacks)] looks at own properties. *)
Definition ensureNonEmpty : M unit :=
  cbs ← gets callbacks;
  if bool_decide (cbs = ∅) then throw (Error msg_noActions) else ret tt.

(** ** The host: promises and the console *)

(** Modelled from the spec: the promise library ([Promise.delay],
    [cancellable], [then], [cancel], [Promise.all]) is not part of the
    sources.  A Scheduled Operation is a deferred, cancellable invocation at a
    delay in milliseconds (section 3).

    [Promise.delay(d).cancellable().then(function () {
    callbacks[anim.label](anim); })]: a new pending promise; the value is the
    reference to it. *)
Definition Promise_delay_then (d : float) (anim : entry) : M nat :=
  h ← gets heap;
  modify (set_heap (h ++ [Promise d anim Pending]));;
  mret (length h).

(** [promises.push(p)] *)
Definition promises_push (p : nat) : M unit :=
  modify (fun σ => set_promises (promises σ ++ [p]) σ).

(** [console.warn(msg)] *)
Definition console_warn (msg : string) : M unit :=
  modify (fun σ => set_console (console σ ++ [msg]) σ).

(** [Promise.all(promises)] makes a promise that nobody keeps; the engine
    and the promises it waits for are unchanged. *)
Definition Promise_all : M unit := mret tt.

(** Modelled from the spec: [p.cancel(reason)] of the promise library, which
    is not part of the sources.  Section 4.6: an operation not yet fired must
    not run its callback once cancelled, and one already fired cannot be
    un-fired.  So a pending promise is rejected, and a promise that was
    settled stays as it is. *)
Definition Promise_cancel (reason : string) (p : nat) : M unit :=
  modify (fun σ =>
    match heap σ !! p with
    | Some (Promise d a Pending) =>
        set_heap (<[p := Promise d a Cancelled]> (heap σ)) σ
    | _ => σ
    end).

(** Modelled from the spec: the timer of the promise library, which is not
    part of the sources, goes off for promise [p].  A pending promise runs the
    handler it was given, and a settled one does nothing (section 3: an
    operation is destroyed by firing or by [cancel]).  The handler is the
    closure of the source, [function () { callbacks[anim.label](anim); }]: it
    reads the registry when it runs, and calls what it finds.  When that is
    not a function the handler throws before calling anything. *)
Definition fire (p : nat) : M unit :=
  h ← gets heap;
  match h !! p with
  | Some (Promise d a Pending) =>
      modify (set_heap (<[p := Promise d a Fired]> h));;
      cbs ← gets callbacks;
      match get cbs (label a) with
      | Some v =>
          if callable v
          then modify (fun σ => set_calls (calls σ ++ [Call p v a]) σ)
          else mret tt
      | None => mret tt
      end
  | _ => mret tt
  end.

(** ** Playback *)

(** [playFrame(anim, t)], the function local to [frameApply]. *)
Definition playFrame (anim : entry) (t : float) : M unit :=
  cbs ← gets callbacks;
  match get cbs (label anim) with
  | Some _ => p ← Promise_delay_then t anim; promises_push p
  | None => console_warn (msg_ignoring (label anim))
  end.

Definition play (t : option float) : M unit :=
  ensureNonEmpty;;
  let t := or_default t 0 in
  u ← gets timeUnit;
  info ← gets timingInfo;
  each info (fun anim =>
    cbs ← gets callbacks;
    match get cbs (label anim) with
    | Some _ =>
        p ← Promise_delay_then (t + toMs u (start anim))%float anim;
        promises_push p
    | None => console_warn (msg_ignoring (label anim))
    end);;
  Promise_all.

Definition cancel : M unit :=
  ps ← gets promises;
  each ps (Promise_cancel msg_cancel);;
  modify (set_promises []).

(** The test of [frameTiming]:
    [(t >= toMs(info.start)) && (t < toMs(info.start + info.durn))] *)
Definition active (u : TimeUnit) (t : float) (info : entry) : bool :=
  (toMs u (start info) <=? t)%float
  && (t <? toMs u (start info + durn info))%float.

Definition frameTiming (t : option float) : M (list entry) :=
  let t := or_default t 0 in
  u ← gets timeUnit;
  info ← gets timingInfo;
  mret (List.filter (active u t) info).

(** [_.each(timingInfo, function (info) {
       durn = Math.max(durn, toMs(info.start + info.durn)); })],
    from [durn = 0]. *)
Definition total_durn (u : TimeUnit) (info : list entry) : float :=
  fold_left (fun d i => Math_max d (toMs u (start i + durn i))) info 0%float.

(** [for (i = 0; (i * increment) < durn; i++)
      times.push(t + (i * increment));] *)
Fixpoint times_loop (fuel : nat) (increment durn t i : float)
    (times : list float) : option (list float) :=
  match fuel with
  | O => None
  | S fuel =>
      if (i * increment <? durn)%float
      then times_loop fuel increment durn t (i + 1)%float
             (times ++ [t + i * increment])%float
      else Some times
  end.

(** [i < _.last(times)]: the comparison with [undefined] is false. *)
Definition lt_last (i : float) (times : list float) : bool :=
  match last times with
  | Some l => (i <? l)%float
  | None => false
  end.

(** [singleTiming(t)]: the function handed to [_.each]. *)
Definition singleTiming (t : float) : entry -> M unit :=
  fun info => playFrame info t.

(** [for (i = t; i < _.last(times); i += increment) {
       var currentTiming = this.frameTiming(i);
       if (currentTiming) _.each(currentTiming, singleTiming(i)); }]
    An array is truthy, also when it is empty. *)
Fixpoint frames_loop (fuel : nat) (increment : float) (times : list float)
    (i : float) : M unit :=
  match fuel with
  | O => fun σ => (OutOfFuel, σ)
  | S fuel =>
      if lt_last i times
      then currentTiming ← frameTiming (Some i);
           each currentTiming (singleTiming i);;
           frames_loop fuel increment times (i + increment)%float
      else mret tt
  end.

(** [frameApply(fps, t)], each of its two loops with [fuel] turns. *)
Definition frameApply (fuel : nat) (fps t : option float) : M unit :=
  ensureNonEmpty;;
  let t := or_default t 0 in
  u ← gets timeUnit;
  let t := toMs u t in
  let fps := or_default fps 10 in
  if (fps <=? 0)%float then throw (Error msg_fps) else
  let increment := (1000 / fps)%float in
  info ← gets timingInfo;
  let durn := total_durn u info in
  match times_loop fuel increment durn t 0 [] with
  | None => fun σ => (OutOfFuel, σ)
  | Some times =>
      frames_loop fuel increment times t;;
      Promise_all
  end.

(** ** Sessions *)

(** What may happen to an engine: the caller calls a method, or the host
    fires a timer. *)
Inductive action :=
  | do_register (fns : gmap string callback) (overwrite : option bool)
  | do_play (t : option float)
  | do_frameApply (fuel : nat) (fps t : option float)
  | do_frameTiming (t : option float)
  | do_cancel
  | do_fire (p : nat).

Definition step (a : action) (σ : state) : state :=
  match a with
  | do_register fns ow => snd (register fns ow σ)
  | do_play t => snd (play t σ)
  | do_frameApply fuel fps t => snd (frameApply fuel fps t σ)
  | do_frameTiming t => snd (frameTiming t σ)
  | do_cancel => snd (cancel σ)
  | do_fire p => snd (fire p σ)
  end.

Definition run (acts : list action) (σ : state) : state :=
  fold_left (fun σ a => step a σ) acts σ.

(** The scheduled operations of a state, as the caller sees them: label and
    delay in milliseconds of each promise in [promises]. *)
Definition scheduled (σ : state) : list (string * float) :=
  omap (fun p => (fun x => (label (anim x), delay x)) <$> heap σ !! p)
       (promises σ).

(** ** Example engines *)

(** [new TimingManager(timingInfo, timeUnit)], for arguments that the
    constructor accepts; the engine without table otherwise. *)
Definition engine (timingInfo : timingArg) (timeUnit : option string) : state :=
  match TimingManager timingInfo timeUnit with
  | inr σ => σ
  | inl _ => State [] U_ms ∅ [] [] [] []
  end.

Definition after {A} (c : M A) (σ : state) : state := snd (c σ).

Definition anim_X : entry := Entry "X" 0 1.
Definition anim_Y : entry := Entry "Y" 0 1.
Definition fn_f : callback := Fn 0.
Definition fn_g : callback := Fn 1.

(** [tm = new TimingManager([{label: "X", start: 0, durn: 1}], "s");
     tm.register({X: f})] *)
Definition engine_X : state :=
  after (register {[ "X"%string := fn_f ]} None)
        (engine (Array [anim_X]) (Some "s"%string)).

(** [tm = new TimingManager([{label: "Y", start: 0, durn: 1}], "s");
     tm.register({Y: f})] *)
Definition engine_Y : state :=
  after (register {[ "Y"%string := fn_f ]} None)
        (engine (Array [anim_Y]) (Some "s"%string)).

(** ** What a playback leaves behind *)

(** [callbacks[anim.label]] is truthy. *)
Definition registered (σ : state) (a : entry) : bool :=
  bool_decide (is_Some (get (callbacks σ) (label a))).

(** The state after the entries of [l] went through [playFrame], entry [a]
    with delay [d a]: a pending promise for each entry for which
    [callbacks[anim.label]] is truthy, a warning for each other entry
    ([each_playFrame] shows it). *)
Definition schedule (d : entry -> float) (l : list entry) (σ : state) : state :=
  let matched := List.filter (registered σ) l in
  let skipped := List.filter (fun a => negb (registered σ a)) l in
  State (timingInfo σ) (timeUnit σ) (callbacks σ)
    (promises σ ++ seq (length (heap σ)) (length matched))
    (heap σ ++ map (fun a => Promise (d a) a Pending) matched)
    (console σ ++ map (fun a => msg_ignoring (label a)) skipped)
    (calls σ).

(** ** Promises over time *)

(** A promise after [cancel]: rejected if it was pending. *)
Definition cancelled (pr : promise) : promise :=
  match settled pr with
  | Pending => Promise (delay pr) (anim pr) Cancelled
  | _ => pr
  end.

(** The promises after [p.cancel(...)] for every [p] of [ps]
    ([each_Promise_cancel] shows it). *)
Definition cancel_all (ps : list nat) (h : list promise) : list promise :=
  foldl (fun h p => alter cancelled p h) h ps.

(** The calls made so far by the handler of promise [p]. *)
Definition calls_by (p : nat) (σ : state) : list call :=
  List.filter (fun c => Nat.eqb (by_promise c) p) (calls σ).

(** The engine refers to no promise that does not exist, it keeps a
    reference to every promise that is still pending, and only promises that
    fired have made calls. *)
Definition tracked (σ : state) : Prop :=
  (forall p, p ∈ promises σ -> p < length (heap σ)) /\
  (forall p pr, heap σ !! p = Some pr -> settled pr = Pending ->
     p ∈ promises σ) /\
  (forall c, c ∈ calls σ ->
     exists pr, heap σ !! by_promise c = Some pr /\ settled pr = Fired).

(** A state that a program can reach: a constructed engine, then method
    calls and timers in any order. *)
Definition reachable (σ : state) : Prop :=
  exists timingInfo timeUnit σ0 acts,
    TimingManager timingInfo timeUnit = inr σ0 /\ σ = run acts σ0.

(** ** Relations between the states of a session *)

(** From [σ] to [σ'] promises, references to them and warnings were added at
    the end, as many references as promises, and nothing else changed. *)
Definition only_appends (σ σ' : state) : Prop :=
  heap σ `prefix_of` heap σ' /\
  promises σ `prefix_of` promises σ' /\
  console σ `prefix_of` console σ' /\
  length (promises σ') + length (heap σ) =
    length (promises σ) + length (heap σ') /\
  callbacks σ' = callbacks σ /\
  calls σ' = calls σ /\
  timingInfo σ' = timingInfo σ /\
  timeUnit σ' = timeUnit σ.

Definition is_register (a : action) : bool :=
  match a with do_register _ _ => true | _ => false end.

Definition is_fire (a : action) : bool :=
  match a with do_fire _ => true | _ => false end.

(** ** Numbers of the examples *)

(** The doubles that the literals [0.1], [0.2] and [8.7] denote. *)
Definition d0_1 : float := 0x1.999999999999ap-4.
Definition d0_2 : float := 0x1.999999999999ap-3.
Definition d8_7 : float := 0x1.1666666666666p+3.

(** ** Rounding to the nearest double *)

(** [rne V n] is the integer nearest to [V / 2^n], the even one of the two
    when [V / 2^n] is half-way between them: the mantissa that the products
    and sums of doubles keep of the exact mantissa [V] when they drop its
    [n] low bits. *)
Definition rne (V n : Z) : Z :=
  let q := (V / 2 ^ n)%Z in
  let rem := (V mod 2 ^ n)%Z in
  if (2 ^ n <? 2 * rem)%Z || ((2 ^ n =? 2 * rem)%Z && Z.odd q)
  then (q + 1)%Z else q.

(** The double with sign [s] that has the rounded mantissa [m] at the
    exponent [e]: zero, the mantissa renormalised when the rounding carried
    into a 54th bit, and infinity above the largest exponent. *)
Definition round_result (s : bool) (m e : Z) : spec_float :=
  if (m =? 0)%Z then S754_zero s
  else if (m =? 2 ^ 53)%Z then
    if (e + 1 <=? 971)%Z then S754_finite s (Z.to_pos (2 ^ 52)) (e + 1)
    else S754_infinity s
  else if (e <=? 971)%Z then S754_finite s (Z.to_pos m) e
  else S754_infinity s.
(** * Properties *)

(** ** Comparison of doubles *)

(** The comparisons of the source are those of IEEE 754; they are reasoned
    about through their specification on [spec_float]. *)

Lemma SFcompare_refl (x : spec_float) :
  SFcompare x x = Some Eq \/ x = S754_nan.
Proof.
  destruct x as [s|s| |s m e]; simpl; auto.
  - left. by destruct s.
  - left. rewrite Z.compare_refl.
    change (Pos.compare_cont Eq m m) with (Pos.compare m m).
    rewrite Pos.compare_refl. by destruct s.
Qed.

(** Two doubles that compare equal compare alike with every double. *)
Lemma SFcompare_Eq (a b : spec_float) :
  SFcompare a b = Some Eq ->
  forall x, SFcompare x a = SFcompare x b /\ SFcompare a x = SFcompare b x.
Proof.
  intros H x.
  destruct a as [sa|sa| |sa ma ea], b as [sb|sb| |sb mb eb]; simpl in H;
    try discriminate;
    try (destruct sa; discriminate); try (destruct sb; discriminate).
  - by destruct x.
  - destruct sa, sb; try discriminate; by destruct x.
  - assert (sa = sb /\ ea = eb /\ ma = mb) as (-> & -> & ->); [|done].
    change (Pos.compare_cont Eq ma mb) with (Pos.compare ma mb) in H.
    destruct sa, sb; try discriminate.
    all: destruct (Z.compare_spec ea eb) as [->| |]; try discriminate.
    all: destruct (Pos.compare_spec ma mb) as [->| |]; try discriminate.
    all: done.
Qed.

Lemma eqb_true_compare (a b : float) :
  (a =? b)%float = true -> SFcompare (Prim2SF a) (Prim2SF b) = Some Eq.
Proof.
  rewrite FloatAxioms.eqb_spec. unfold SFeqb.
  by destruct (SFcompare _ _) as [[]|].
Qed.

Lemma eqb_leb_r (x a b : float) :
  (a =? b)%float = true -> (x <=? a)%float = (x <=? b)%float.
Proof.
  intros H%eqb_true_compare. rewrite !FloatAxioms.leb_spec. unfold SFleb.
  by rewrite (proj1 (SFcompare_Eq _ _ H (Prim2SF x))).
Qed.

Lemma eqb_ltb_l (x a b : float) :
  (a =? b)%float = true -> (a <? x)%float = (b <? x)%float.
Proof.
  intros H%eqb_true_compare. rewrite !FloatAxioms.ltb_spec. unfold SFltb.
  by rewrite (proj2 (SFcompare_Eq _ _ H (Prim2SF x))).
Qed.

Lemma eqb_ltb_r (x a b : float) :
  (a =? b)%float = true -> (x <? a)%float = (x <? b)%float.
Proof.
  intros H%eqb_true_compare. rewrite !FloatAxioms.ltb_spec. unfold SFltb.
  by rewrite (proj1 (SFcompare_Eq _ _ H (Prim2SF x))).
Qed.

Lemma ltb_irrefl (x : float) : (x <? x)%float = false.
Proof.
  rewrite FloatAxioms.ltb_spec. unfold SFltb.
  by destruct (SFcompare_refl (Prim2SF x)) as [->| ->].
Qed.

Lemma leb_refl (x : float) : is_nan x = false -> (x <=? x)%float = true.
Proof.
  unfold is_nan. rewrite negb_false_iff.
  rewrite FloatAxioms.eqb_spec, FloatAxioms.leb_spec. unfold SFeqb, SFleb.
  by destruct (SFcompare _ _) as [[]|].
Qed.

Lemma leb_ltb_eqb (a b : float) :
  (a <=? b)%float = ((a <? b) || (a =? b))%float.
Proof.
  rewrite FloatAxioms.leb_spec, FloatAxioms.ltb_spec, FloatAxioms.eqb_spec. unfold SFleb, SFltb, SFeqb.
  by destruct (SFcompare _ _) as [[]|].
Qed.

Lemma ltb_not_eqb (a b : float) :
  (a <? b)%float = true -> (a =? b)%float = false.
Proof.
  rewrite FloatAxioms.ltb_spec, FloatAxioms.eqb_spec. unfold SFltb, SFeqb.
  by destruct (SFcompare _ _) as [[]|].
Qed.

Lemma ltb_not_nan (a b : float) :
  (a <? b)%float = true -> is_nan a = false /\ is_nan b = false.
Proof.
  unfold is_nan. rewrite !negb_false_iff, FloatAxioms.ltb_spec, !FloatAxioms.eqb_spec.
  unfold SFltb, SFeqb. intros H.
  destruct (SFcompare_refl (Prim2SF a)) as [->|Ha],
           (SFcompare_refl (Prim2SF b)) as [->|Hb]; try done.
  - rewrite Hb in H. by destruct (Prim2SF a).
  - by rewrite Ha in H.
  - by rewrite Ha in H.
Qed.

Lemma eqb_not_nan (a b : float) :
  (a =? b)%float = true -> is_nan a = false /\ is_nan b = false.
Proof.
  unfold is_nan. rewrite !negb_false_iff, !FloatAxioms.eqb_spec.
  unfold SFeqb. intros H.
  destruct (SFcompare_refl (Prim2SF a)) as [->|Ha],
           (SFcompare_refl (Prim2SF b)) as [->|Hb]; try done.
  - rewrite Hb in H. by destruct (Prim2SF a).
  - by rewrite Ha in H.
  - by rewrite Ha in H.
Qed.

(** ** Falsy numbers *)

Lemma or_default_falsy (z d : float) :
  falsy z = true -> or_default (Some z) d = d.
Proof. intros H. unfold or_default. by rewrite H. Qed.

(** A number that is not [NaN] and its value after [t || 0] compare alike. *)
Lemma or_default_zero (t : float) :
  is_nan t = false ->
  or_default (Some t) 0 = t \/
  (or_default (Some t) 0 = 0%float /\ (t =? 0)%float = true).
Proof.
  intros Hn. unfold or_default, falsy. rewrite Hn, orb_false_r.
  destruct (t =? 0)%float; auto.
Qed.

(** ** Rounding of doubles *)

(** The products and sums of the source are rounded to the nearest double.
    The lemmas of this section read the specification of the rounding
    ([binary_round_aux]) as a function of the value that is rounded, and
    show that it is monotone. *)

Section Rounding.
Local Open Scope Z_scope.


Lemma iter_pos_nat {A} (f : A -> A) (p : positive) (x : A) :
  @SpecFloat.iter_pos A f p x = Nat.iter (Pos.to_nat p) f x.
Proof.
  revert x. induction p as [p IH|p IH|]; intros x; cbn [SpecFloat.iter_pos].
  - rewrite !IH, Pos2Nat.inj_xI.
    replace (S (2 * Pos.to_nat p))%nat with (Pos.to_nat p + S (Pos.to_nat p))%nat by lia.
    rewrite Nat.iter_add. f_equal. by rewrite Nat.iter_succ_r.
  - rewrite !IH, Pos2Nat.inj_xO.
    replace (2 * Pos.to_nat p)%nat with (Pos.to_nat p + Pos.to_nat p)%nat by lia.
    by rewrite Nat.iter_add.
  - done.
Qed.

Lemma shr_1_nonneg (m : Z) (r s : bool) :
  0 <= m ->
  shr_1 (Build_shr_record m r s) = Build_shr_record (m / 2) (Z.odd m) (r || s).
Proof.
  intros Hm. destruct m as [|p|p]; [done| |lia].
  destruct p as [p|p|]; simpl; f_equal.
  - rewrite Pos2Z.inj_xI. apply Z.div_unique with 1; lia.
  - rewrite Pos2Z.inj_xO. apply Z.div_unique with 0; lia.
Qed.

Lemma iter_shr_1 (V : Z) (k : nat) :
  0 <= V ->
  Nat.iter (S k) shr_1 (Build_shr_record V false false) =
  Build_shr_record (V / 2 ^ Z.of_nat (S k))
                   (Z.odd (V / 2 ^ Z.of_nat k))
                   (negb (V mod 2 ^ Z.of_nat k =? 0)).
Proof.
  intros HV. induction k as [|k IH].
  - rewrite Nat.iter_succ. cbn [Nat.iter nat_rect].
    rewrite shr_1_nonneg by done.
    change (2 ^ Z.of_nat 1) with 2. change (2 ^ Z.of_nat 0) with 1.
    by rewrite Z.div_1_r, Z.mod_1_r.
  - rewrite Nat.iter_succ, IH.
    assert (0 < 2 ^ Z.of_nat k) as Hk by (apply Z.pow_pos_nonneg; lia).
    assert (2 ^ Z.of_nat (S k) = 2 ^ Z.of_nat k * 2) as E1
      by (rewrite Nat2Z.inj_succ, Z.pow_succ_r; lia).
    assert (2 ^ Z.of_nat (S (S k)) = 2 ^ Z.of_nat (S k) * 2) as E2
      by (rewrite (Nat2Z.inj_succ (S k)), Z.pow_succ_r; lia).
    rewrite shr_1_nonneg by (apply Z.div_pos; lia).
    f_equal.
    + rewrite E2, Z.div_div by lia. done.
    + rewrite E1, Z.rem_mul_r by lia.
      rewrite (Zmod_odd (V / 2 ^ Z.of_nat k)).
      pose proof (Z.mod_pos_bound V (2 ^ Z.of_nat k) Hk).
      destruct (Z.odd (V / 2 ^ Z.of_nat k));
        destruct (Z.eqb_spec (V mod 2 ^ Z.of_nat k) 0) as [->|]; simpl;
        symmetry.
      * apply negb_true_iff, Z.eqb_neq. lia.
      * apply negb_true_iff, Z.eqb_neq. nia.
      * apply negb_false_iff, Z.eqb_eq. nia.
      * apply negb_true_iff, Z.eqb_neq. nia.
Qed.

Lemma rne_0 (V : Z) : rne V 0 = V.
Proof.
  unfold rne. change (2 ^ 0) with 1. rewrite Z.div_1_r, Z.mod_1_r. done.
Qed.

Lemma round_shr (V : Z) (k : nat) :
  0 <= V ->
  let mrs := Nat.iter (S k) shr_1 (Build_shr_record V false false) in
  shr_m mrs = V / 2 ^ Z.of_nat (S k) /\
  round_nearest_even (shr_m mrs) (loc_of_shr_record mrs)
    = rne V (Z.of_nat (S k)).
Proof.
  intros HV mrs. subst mrs. rewrite iter_shr_1 by done.
  split; [done|].
  assert (0 < 2 ^ Z.of_nat k) as Hk by (apply Z.pow_pos_nonneg; lia).
  assert (2 ^ Z.of_nat (S k) = 2 ^ Z.of_nat k * 2) as E1
    by (rewrite Nat2Z.inj_succ, Z.pow_succ_r; lia).
  unfold rne. cbn [shr_m loc_of_shr_record].
  set (q := V / 2 ^ Z.of_nat (S k)).
  rewrite E1, Z.rem_mul_r by lia.
  rewrite (Zmod_odd (V / 2 ^ Z.of_nat k)).
  pose proof (Z.mod_pos_bound V (2 ^ Z.of_nat k) Hk).
  destruct (Z.odd (V / 2 ^ Z.of_nat k));
    destruct (Z.eqb_spec (V mod 2 ^ Z.of_nat k) 0) as [->|]; simpl negb;
    cbn [round_nearest_even].
  - rewrite (proj2 (Z.ltb_ge _ _)) by lia.
    rewrite (proj2 (Z.eqb_eq _ _)) by lia. simpl.
    rewrite <- Z.negb_odd. by destruct (Z.odd q).
  - by rewrite (proj2 (Z.ltb_lt _ _)) by lia.
  - rewrite (proj2 (Z.ltb_ge _ _)) by lia.
    by rewrite (proj2 (Z.eqb_neq _ _)) by lia.
  - rewrite (proj2 (Z.ltb_ge _ _)) by lia.
    by rewrite (proj2 (Z.eqb_neq _ _)) by lia.
Qed.

Lemma fexp_eq (x : Z) : fexp prec emax x = Z.max (x - 53) (-1074).
Proof. reflexivity. Qed.

Lemma digits2_pos_bounds (m : positive) :
  2 ^ (Z.pos (digits2_pos m) - 1) <= Z.pos m < 2 ^ Z.pos (digits2_pos m).
Proof.
  induction m as [m IH|m IH|]; cbn [digits2_pos]; [| |done].
  - rewrite Pos2Z.inj_succ. change (Z.pos m~1) with (2 * Z.pos m + 1).
    replace (Z.succ (Z.pos (digits2_pos m)) - 1)
      with (Z.succ (Z.pos (digits2_pos m) - 1)) by lia.
    rewrite !Z.pow_succ_r by lia. lia.
  - rewrite Pos2Z.inj_succ. change (Z.pos m~0) with (2 * Z.pos m).
    replace (Z.succ (Z.pos (digits2_pos m)) - 1)
      with (Z.succ (Z.pos (digits2_pos m) - 1)) by lia.
    rewrite !Z.pow_succ_r by lia. lia.
Qed.

Lemma digits2_pos_unique (m : positive) (d : Z) :
  2 ^ (d - 1) <= Z.pos m < 2 ^ d -> Z.pos (digits2_pos m) = d.
Proof.
  intros [H1 H2]. pose proof (digits2_pos_bounds m) as [H3 H4].
  assert (0 < d).
  { destruct (Z.ltb_spec 0 d); [done|].
    assert (2 ^ d <= 2 ^ 0) by (destruct (Z.ltb_spec d 0);
      [rewrite Z.pow_neg_r by done; lia | apply Z.pow_le_mono_r; lia]).
    change (2 ^ 0) with 1 in *. lia. }
  assert (d - 1 < Z.pos (digits2_pos m)).
  { apply (Z.pow_lt_mono_r_iff 2); lia. }
  assert (Z.pos (digits2_pos m) - 1 < d).
  { apply (Z.pow_lt_mono_r_iff 2); lia. }
  lia.
Qed.

(** The quotient and the rounded quotient. *)
Lemma rne_bounds (V n : Z) :
  V / 2 ^ n <= rne V n <= V / 2 ^ n + 1.
Proof.
  unfold rne.
  destruct ((2 ^ n <? 2 * (V mod 2 ^ n)) ||
            ((2 ^ n =? 2 * (V mod 2 ^ n)) && Z.odd (V / 2 ^ n))); lia.
Qed.

Lemma rne_mono (n V1 V2 : Z) :
  0 <= n -> V1 <= V2 -> rne V1 n <= rne V2 n.
Proof.
  intros Hn HV.
  assert (0 < 2 ^ n) as Hp by (apply Z.pow_pos_nonneg; lia).
  pose proof (Z.div_le_mono V1 V2 (2 ^ n) Hp HV) as Hq.
  destruct (Z.eq_dec (V1 / 2 ^ n) (V2 / 2 ^ n)) as [Heq|Hne].
  - unfold rne. rewrite Heq.
    pose proof (Z.div_mod V1 (2 ^ n) ltac:(lia)).
    pose proof (Z.div_mod V2 (2 ^ n) ltac:(lia)).
    assert (V1 mod 2 ^ n <= V2 mod 2 ^ n) by nia.
    destruct (Z.ltb_spec (2 ^ n) (2 * (V1 mod 2 ^ n)));
      destruct (Z.ltb_spec (2 ^ n) (2 * (V2 mod 2 ^ n)));
      destruct (Z.eqb_spec (2 ^ n) (2 * (V1 mod 2 ^ n)));
      destruct (Z.eqb_spec (2 ^ n) (2 * (V2 mod 2 ^ n)));
      destruct (Z.odd (V2 / 2 ^ n)); simpl; lia.
  - pose proof (rne_bounds V1 n). pose proof (rne_bounds V2 n). lia.
Qed.

Lemma rne_upper (M : positive) (n : Z) :
  0 <= n -> Z.pos (digits2_pos M) - 53 <= n ->
  0 <= rne (Z.pos M) n <= 2 ^ 53.
Proof.
  intros Hn Hd.
  assert (0 < 2 ^ n) as Hp by (apply Z.pow_pos_nonneg; lia).
  pose proof (rne_bounds (Z.pos M) n).
  pose proof (digits2_pos_bounds M) as [_ Hm].
  assert (0 <= Z.pos M / 2 ^ n) by (apply Z.div_pos; lia).
  assert (Z.pos M / 2 ^ n < 2 ^ 53).
  { apply Z.div_lt_upper_bound; [done|].
    rewrite <- Z.pow_add_r by lia.
    eapply Z.lt_le_trans; [exact Hm|]. apply Z.pow_le_mono_r; lia. }
  lia.
Qed.

Lemma rne_lower (M : positive) (n : Z) :
  0 <= n -> n = Z.pos (digits2_pos M) - 53 ->
  2 ^ 52 <= rne (Z.pos M) n.
Proof.
  intros Hn Hd.
  assert (0 < 2 ^ n) as Hp by (apply Z.pow_pos_nonneg; lia).
  pose proof (rne_bounds (Z.pos M) n).
  pose proof (digits2_pos_bounds M) as [Hm _].
  assert (2 ^ 52 <= Z.pos M / 2 ^ n); [|lia].
  apply Z.div_le_lower_bound; [done|].
  rewrite <- Z.pow_add_r by lia.
  replace (n + 52) with (Z.pos (digits2_pos M) - 1) by lia. done.
Qed.

Lemma shr_nonpos (mrs : shr_record) (e n : Z) :
  n <= 0 -> shr mrs e n = (mrs, e).
Proof. intros H. by destruct n. Qed.

Lemma binary_round_aux_spec (s : bool) (M : positive) (E : Z) :
  let e := fexp prec emax (Z.pos (digits2_pos M) + E) in
  0 <= e - E ->
  binary_round_aux prec emax s (Z.pos M) E loc_Exact
    = round_result s (rne (Z.pos M) (e - E)) e.
Proof.
  intros e Hn.
  assert (-1074 <= e) as He by (subst e; rewrite fexp_eq; lia).
  assert (Z.pos (digits2_pos M) - 53 <= e - E)
    by (subst e; rewrite fexp_eq; lia).
  pose proof (rne_upper M (e - E) Hn ltac:(done)) as Hm.
  unfold binary_round_aux.
  assert (exists mrs,
    shr_fexp prec emax (Z.pos M) E loc_Exact = (mrs, e) /\
    round_nearest_even (shr_m mrs) (loc_of_shr_record mrs)
      = rne (Z.pos M) (e - E)) as (mrs & -> & ->).
  { unfold shr_fexp. cbn [Zdigits2 shr_record_of_loc]. fold e.
    destruct (e - E) as [|p|p] eqn:En; [| |lia].
    - eexists. split; [cbn [shr]; f_equal; lia|].
      by rewrite rne_0.
    - cbn [shr]. eexists. split; [f_equal; lia|].
      rewrite iter_pos_nat.
      destruct (Pos2Nat.is_succ p) as [k Hk]. rewrite Hk.
      replace (Z.pos p) with (Z.of_nat (S k)) by lia.
      by apply round_shr. }
  set (m := rne (Z.pos M) (e - E)) in *.
  unfold round_result, shr_fexp.
  destruct (Z.eqb_spec m 0) as [->|Hm0].
  { rewrite shr_nonpos by (cbn [Zdigits2]; rewrite fexp_eq; lia). done. }
  destruct (Z.eqb_spec m (2 ^ 53)) as [->|Hm1].
  { change (Zdigits2 (2 ^ 53)) with 54.
    replace (fexp prec emax (54 + e) - e) with 1 by (rewrite fexp_eq; lia).
    cbn -[Z.leb Z.add]. done. }
  destruct m as [|m|m]; [done| |lia].
  rewrite shr_nonpos.
  - done.
  - cbn [Zdigits2]. rewrite fexp_eq.
    pose proof (digits2_pos_bounds m) as [H1 _].
    assert (Z.pos (digits2_pos m) - 1 < 53); [|lia].
    apply (Z.pow_lt_mono_r_iff 2); lia.
Qed.

Lemma finite_leb (m1 m2 : positive) (e1 e2 : Z) :
  SFleb (S754_finite false m1 e1) (S754_finite false m2 e2) = true <->
  e1 < e2 \/ (e1 = e2 /\ (m1 <= m2)%positive).
Proof.
  unfold SFleb, SFcompare.
  change (Pos.compare_cont Eq m1 m2) with (m1 ?= m2)%positive.
  destruct (Z.compare_spec e1 e2); [|intuition lia|intuition (done || lia)].
  destruct (Pos.compare_spec m1 m2); intuition (done || lia).
Qed.

(** The results of rounding are ordered as their mantissas and exponents
    are. *)
Lemma round_result_le (m1 e1 m2 e2 : Z) :
  0 <= m1 <= 2 ^ 53 -> 0 <= m2 <= 2 ^ 53 ->
  (e1 = e2 /\ m1 <= m2) \/ (e1 < e2 /\ 2 ^ 52 <= m2) ->
  SFleb (round_result false m1 e1) (round_result false m2 e2) = true.
Proof.
  intros H1 H2 H. unfold round_result.
  assert (Z.pos (Z.to_pos (2 ^ 52)) = 2 ^ 52) as E52 by done.
  destruct (Z.eqb_spec m1 0), (Z.eqb_spec m2 0),
    (Z.eqb_spec m1 (2 ^ 53)), (Z.eqb_spec m2 (2 ^ 53)),
    (Z.leb_spec (e1 + 1) 971), (Z.leb_spec (e2 + 1) 971),
    (Z.leb_spec e1 971), (Z.leb_spec e2 971);
    try lia; try done;
    rewrite finite_leb; lia.
Qed.

Lemma digits2_pos_le (M1 M2 : positive) :
  (M1 <= M2)%positive -> Z.pos (digits2_pos M1) <= Z.pos (digits2_pos M2).
Proof.
  intros H.
  pose proof (digits2_pos_bounds M1) as [H1 _].
  pose proof (digits2_pos_bounds M2) as [_ H2].
  assert (Z.pos (digits2_pos M1) - 1 < Z.pos (digits2_pos M2)); [|lia].
  apply (Z.pow_lt_mono_r_iff 2); lia.
Qed.

(** Rounding is monotone on the mantissas of one exponent. *)
Lemma binary_round_aux_mono (M1 M2 : positive) (E : Z) :
  (M1 <= M2)%positive ->
  0 <= fexp prec emax (Z.pos (digits2_pos M1) + E) - E ->
  SFleb (binary_round_aux prec emax false (Z.pos M1) E loc_Exact)
        (binary_round_aux prec emax false (Z.pos M2) E loc_Exact) = true.
Proof.
  intros HM Hn. pose proof (digits2_pos_le _ _ HM) as Hd.
  rewrite fexp_eq in Hn.
  rewrite !binary_round_aux_spec by (rewrite fexp_eq; lia).
  rewrite !fexp_eq.
  set (e1 := Z.max (Z.pos (digits2_pos M1) + E - 53) (-1074)) in *.
  set (e2 := Z.max (Z.pos (digits2_pos M2) + E - 53) (-1074)).
  apply round_result_le.
  - apply rne_upper; subst e1; lia.
  - apply rne_upper; subst e1 e2; lia.
  - destruct (Z.eq_dec e1 e2) as [He|He].
    + left. split; [done|]. rewrite <- He. apply rne_mono; lia.
    + right. split; [subst e1 e2; lia|].
      apply rne_lower; subst e1 e2; lia.
Qed.

Lemma rne_shift (V n k : Z) :
  0 <= n -> 0 <= k -> rne (V * 2 ^ k) (n + k) = rne V n.
Proof.
  intros Hn Hk.
  assert (0 < 2 ^ n) by (apply Z.pow_pos_nonneg; lia).
  assert (0 < 2 ^ k) by (apply Z.pow_pos_nonneg; lia).
  unfold rne. rewrite Z.pow_add_r by done.
  rewrite Z.div_mul_cancel_r, Z.mul_mod_distr_r by lia.
  replace (2 ^ n * 2 ^ k <? 2 * (V mod 2 ^ n * 2 ^ k))
    with (2 ^ n <? 2 * (V mod 2 ^ n)).
  2:{ destruct (Z.ltb_spec (2 ^ n) (2 * (V mod 2 ^ n)));
      destruct (Z.ltb_spec (2 ^ n * 2 ^ k) (2 * (V mod 2 ^ n * 2 ^ k)));
      try done; nia. }
  replace (2 ^ n * 2 ^ k =? 2 * (V mod 2 ^ n * 2 ^ k))
    with (2 ^ n =? 2 * (V mod 2 ^ n)).
  2:{ destruct (Z.eqb_spec (2 ^ n) (2 * (V mod 2 ^ n)));
      destruct (Z.eqb_spec (2 ^ n * 2 ^ k) (2 * (V mod 2 ^ n * 2 ^ k)));
      try done; nia. }
  done.
Qed.

Lemma digits2_pos_shift (M P : positive) (k : Z) :
  0 <= k -> Z.pos P = Z.pos M * 2 ^ k ->
  Z.pos (digits2_pos P) = Z.pos (digits2_pos M) + k.
Proof.
  intros Hk HP. apply digits2_pos_unique. rewrite HP.
  pose proof (digits2_pos_bounds M) as [H1 H2].
  assert (0 < 2 ^ k) by (apply Z.pow_pos_nonneg; lia).
  replace (Z.pos (digits2_pos M) + k - 1)
    with (Z.pos (digits2_pos M) - 1 + k) by lia.
  rewrite !Z.pow_add_r by lia. nia.
Qed.

(** Rounding depends on the value only: shifting the mantissa to the left and
    lowering the exponent changes nothing. *)
Lemma binary_round_aux_shift (s : bool) (M P : positive) (E k : Z) :
  0 <= k -> Z.pos P = Z.pos M * 2 ^ k ->
  0 <= fexp prec emax (Z.pos (digits2_pos M) + E) - E ->
  binary_round_aux prec emax s (Z.pos P) (E - k) loc_Exact
    = binary_round_aux prec emax s (Z.pos M) E loc_Exact.
Proof.
  intros Hk HP Hn.
  pose proof (digits2_pos_shift M P k Hk HP) as Hd.
  rewrite fexp_eq in Hn.
  rewrite !binary_round_aux_spec by (rewrite fexp_eq; lia).
  replace (Z.pos (digits2_pos P) + (E - k))
    with (Z.pos (digits2_pos M) + E) by lia.
  f_equal. rewrite HP.
  replace (fexp prec emax (Z.pos (digits2_pos M) + E) - (E - k))
    with (fexp prec emax (Z.pos (digits2_pos M) + E) - E + k) by lia.
  apply rne_shift; [rewrite fexp_eq|]; lia.
Qed.

Lemma SFcompare_opp (a b : spec_float) :
  SFcompare (SFopp a) (SFopp b) = SFcompare b a.
Proof.
  destruct a as [sa|sa| |sa ma ea], b as [sb|sb| |sb mb eb];
    try done; try (by destruct sa); try (by destruct sb);
    try (by destruct sa, sb).
  unfold SFopp, SFcompare.
  change (Pos.compare_cont Eq ma mb) with (ma ?= mb)%positive.
  change (Pos.compare_cont Eq mb ma) with (mb ?= ma)%positive.
  rewrite (Z.compare_antisym ea eb), (Pos.compare_antisym ma mb).
  destruct sa, sb; simpl; try done.
  all: destruct (ea ?= eb); simpl; try done.
  by rewrite CompOpp_involutive.
Qed.

Lemma SFleb_opp (a b : spec_float) :
  SFleb (SFopp a) (SFopp b) = SFleb b a.
Proof. unfold SFleb. by rewrite SFcompare_opp. Qed.

Lemma round_result_opp (s : bool) (m e : Z) :
  round_result (negb s) m e = SFopp (round_result s m e).
Proof.
  unfold round_result.
  by destruct (m =? 0), (m =? 2 ^ 53), (e + 1 <=? 971), (e <=? 971).
Qed.

(** A rounded result has the sign it was given and is not [NaN]. *)
Lemma round_result_cases (s : bool) (m e : Z) :
  round_result s m e = S754_zero s \/
  round_result s m e = S754_infinity s \/
  exists m' e', round_result s m e = S754_finite s m' e'.
Proof.
  unfold round_result.
  destruct (m =? 0), (m =? 2 ^ 53), (e + 1 <=? 971), (e <=? 971); eauto.
Qed.

Lemma neg_leb_pos (a b : spec_float) :
  (a = S754_zero true \/ a = S754_infinity true \/
   exists m e, a = S754_finite true m e) ->
  (b = S754_zero false \/ b = S754_infinity false \/
   exists m e, b = S754_finite false m e) ->
  SFleb a b = true.
Proof.
  intros [->|[->|(?&?&->)]] [->|[->|(?&?&->)]]; done.
Qed.

Lemma valid_finite (s : bool) (m : positive) (e : Z) :
  valid_binary (S754_finite s m e) = true ->
  -1074 <= e <= 971 /\ Z.pos (digits2_pos m) <= 53 /\
  (-1074 < e -> Z.pos (digits2_pos m) = 53).
Proof.
  unfold valid_binary, SpecFloat.valid_binary, bounded, canonical_mantissa.
  rewrite andb_true_iff, Z.eqb_eq, Z.leb_le, fexp_eq.
  change (emax - prec) with 971. lia.
Qed.

Lemma digits2_pos_mul (a b : positive) :
  Z.pos (digits2_pos a) + Z.pos (digits2_pos b) - 1
    <= Z.pos (digits2_pos (a * b)).
Proof.
  pose proof (digits2_pos_bounds a) as [Ha _].
  pose proof (digits2_pos_bounds b) as [Hb _].
  pose proof (digits2_pos_bounds (a * b)) as [_ Hab].
  assert (Z.pos (digits2_pos a) - 1 + (Z.pos (digits2_pos b) - 1)
          < Z.pos (digits2_pos (a * b))); [|lia].
  apply (Z.pow_lt_mono_r_iff 2); [lia|lia|].
  rewrite Z.pow_add_r by lia. rewrite Pos2Z.inj_mul in Hab.
  assert (0 < 2 ^ (Z.pos (digits2_pos a) - 1)) by (apply Z.pow_pos_nonneg; lia).
  assert (0 < 2 ^ (Z.pos (digits2_pos b) - 1)) by (apply Z.pow_pos_nonneg; lia).
  nia.
Qed.

Section Product.
(** The factor: a positive normal number, as 1000 and 60 are. *)
Variables (mc : positive) (ec : Z).
Hypothesis normal : digits2_pos mc = 53%positive.

Lemma product_shift (mx : positive) (ex : Z) :
  0 <= fexp prec emax (Z.pos (digits2_pos (mx * mc)) + (ex + ec))
       - (ex + ec).
Proof.
  pose proof (digits2_pos_mul mx mc). rewrite normal in *.
  rewrite fexp_eq. lia.
Qed.

Lemma SFmul_cases (s : bool) (mx : positive) (ex : Z) :
  let r := SFmul prec emax (S754_finite s mx ex) (S754_finite false mc ec) in
  r = S754_zero s \/ r = S754_infinity s \/
  exists m e, r = S754_finite s m e.
Proof.
  cbn [SFmul]. rewrite xorb_false_r.
  rewrite binary_round_aux_spec by (by apply product_shift).
  apply round_result_cases.
Qed.

Lemma SFmul_mono_pos (mx my : positive) (ex ey : Z) :
  valid_binary (S754_finite false mx ex) = true ->
  valid_binary (S754_finite false my ey) = true ->
  SFleb (S754_finite false mx ex) (S754_finite false my ey) = true ->
  SFleb (SFmul prec emax (S754_finite false mx ex) (S754_finite false mc ec))
        (SFmul prec emax (S754_finite false my ey) (S754_finite false mc ec))
    = true.
Proof.
  intros Vx Vy Hle. apply valid_finite in Vx as (Hex & Hdx & _).
  apply valid_finite in Vy as (Hey & _ & Hdy).
  apply finite_leb in Hle. cbn [SFmul xorb].
  destruct (Z.eq_dec ex ey) as [<-|Hne].
  - apply binary_round_aux_mono; [|by apply product_shift].
    destruct Hle as [?|[_ ?]]; [lia|]. nia.
  - destruct Hle as [Hlt|[? _]]; [|done].
    set (k := ey - ex).
    assert (0 < 2 ^ k) by (apply Z.pow_pos_nonneg; lia).
    set (P := Z.to_pos (Z.pos (my * mc) * 2 ^ k)).
    assert (Z.pos P = Z.pos (my * mc) * 2 ^ k) as HP
      by (subst P; rewrite Z2Pos.id; lia).
    rewrite <- (binary_round_aux_shift false (my * mc) P (ey + ec) k)
      by (done || lia || by apply product_shift).
    replace (ey + ec - k) with (ex + ec) by lia.
    apply binary_round_aux_mono; [|by apply product_shift].
    pose proof (digits2_pos_bounds mx) as [_ Hx].
    pose proof (digits2_pos_bounds my) as [Hy _].
    rewrite Hdy in Hy by lia.
    assert (Z.pos mx < 2 ^ 53).
    { eapply Z.lt_le_trans; [exact Hx|]. apply Z.pow_le_mono_r; lia. }
    assert (2 <= 2 ^ k).
    { change 2 with (2 ^ 1) at 1. apply Z.pow_le_mono_r; lia. }
    assert (Z.pos (mx * mc) <= Z.pos P); [|lia].
    rewrite HP, !Pos2Z.inj_mul.
    change (2 ^ (53 - 1)) with 4503599627370496 in Hy.
    change (2 ^ 53) with 9007199254740992 in *.
    assert (4503599627370496 * 2 <= Z.pos my * 2 ^ k)
      by (apply Z.mul_le_mono_nonneg; lia).
    rewrite <- Z.mul_assoc, (Z.mul_comm (Z.pos mc)), Z.mul_assoc.
    apply Z.mul_le_mono_nonneg_r; lia.
Qed.

(** The product by the factor is monotone on the numbers of the format. *)
Lemma SFmul_mono (X Y : spec_float) :
  valid_binary X = true -> valid_binary Y = true ->
  SFleb X Y = true ->
  SFleb (SFmul prec emax X (S754_finite false mc ec))
        (SFmul prec emax Y (S754_finite false mc ec)) = true.
Proof.
  intros Vx Vy Hle.
  destruct X as [sx|sx| |sx mx ex], Y as [sy|sy| |sy my ey];
    try discriminate Hle;
    try destruct sx; try destruct sy; try discriminate Hle; try done;
    try (cbn [SFmul xorb];
         repeat match goal with
         | |- context [binary_round_aux _ _ ?s (Z.pos (?m * mc)) (?e + ec)
                         loc_Exact] =>
             let H := fresh in
             destruct (SFmul_cases s m e) as [H|[H|(?&?&H)]];
             cbn [SFmul xorb] in H; rewrite H; clear H
         end; done).
  - change (S754_finite true mx ex) with (SFopp (S754_finite false mx ex))
      in Hle.
    change (S754_finite true my ey) with (SFopp (S754_finite false my ey))
      in Hle.
    rewrite SFleb_opp in Hle.
    cbn [SFmul xorb].
    rewrite !binary_round_aux_spec by (by apply product_shift).
    rewrite !(round_result_opp false). rewrite SFleb_opp.
    rewrite <- !binary_round_aux_spec by (by apply product_shift).
    by apply (SFmul_mono_pos my mx ey ex).
  - by apply SFmul_mono_pos.
Qed.
End Product.

(** ** Sums *)

Lemma iter_xO (m d : positive) :
  Z.pos (Pos.iter xO m d) = Z.pos m * 2 ^ Z.pos d.
Proof.
  induction d as [|d IH] using Pos.peano_ind.
  - cbn [Pos.iter]. lia.
  - rewrite Pos.iter_succ, Pos2Z.inj_succ, Z.pow_succ_r by lia.
    change (Z.pos (Pos.iter xO m d)~0) with (2 * Z.pos (Pos.iter xO m d)).
    rewrite IH. lia.
Qed.

Lemma shl_align_fst (m : positive) (e e' : Z) :
  e' <= e -> Z.pos (fst (shl_align m e e')) = Z.pos m * 2 ^ (e - e').
Proof.
  intros H. unfold shl_align.
  destruct (e' - e) as [|d|d] eqn:E; [| lia |].
  - replace (e - e') with 0 by lia. cbn [fst]. lia.
  - cbn [fst]. rewrite iter_xO. f_equal. f_equal. lia.
Qed.

(** [binary_round] is [binary_round_aux] on the mantissa shifted to any
    exponent that is low enough. *)
Lemma binary_round_shifted (s : bool) (M P : positive) (E K : Z) :
  0 <= K -> E - fexp prec emax (Z.pos (digits2_pos M) + E) <= K ->
  Z.pos P = Z.pos M * 2 ^ K ->
  binary_round prec emax s M E
    = binary_round_aux prec emax s (Z.pos P) (E - K) loc_Exact.
Proof.
  intros HK Hn HP. unfold binary_round, shl_align.
  destruct (fexp prec emax (Z.pos (digits2_pos M) + E) - E) as [|d|d] eqn:En.
  - symmetry. apply (binary_round_aux_shift s M P E K); lia.
  - symmetry. apply (binary_round_aux_shift s M P E K); lia.
  - assert (Z.pos (digits2_pos (Pos.iter xO M d))
            = Z.pos (digits2_pos M) + Z.pos d) as Hd
      by (apply digits2_pos_shift; [lia|apply iter_xO]).
    replace (fexp prec emax (Z.pos (digits2_pos M) + E)) with (E - Z.pos d)
      by lia.
    rewrite <- (binary_round_aux_shift s (Pos.iter xO M d) P (E - Z.pos d)
                 (K - Z.pos d)).
    + f_equal. lia.
    + lia.
    + rewrite HP, iter_xO, <- Z.mul_assoc, <- Z.pow_add_r by lia.
      f_equal. f_equal. lia.
    + rewrite Hd.
      replace (Z.pos (digits2_pos M) + Z.pos d + (E - Z.pos d))
        with (Z.pos (digits2_pos M) + E) by lia. lia.
Qed.

Lemma binary_round_mono (M1 M2 : positive) (E : Z) :
  (M1 <= M2)%positive ->
  SFleb (binary_round prec emax false M1 E) (binary_round prec emax false M2 E)
    = true.
Proof.
  intros HM.
  set (K := Z.max 0 (Z.max
    (E - fexp prec emax (Z.pos (digits2_pos M1) + E))
    (E - fexp prec emax (Z.pos (digits2_pos M2) + E)))).
  assert (0 < 2 ^ K) by (apply Z.pow_pos_nonneg; lia).
  set (P1 := Z.to_pos (Z.pos M1 * 2 ^ K)).
  set (P2 := Z.to_pos (Z.pos M2 * 2 ^ K)).
  assert (Z.pos P1 = Z.pos M1 * 2 ^ K) as H1 by (subst P1; rewrite Z2Pos.id; lia).
  assert (Z.pos P2 = Z.pos M2 * 2 ^ K) as H2 by (subst P2; rewrite Z2Pos.id; lia).
  rewrite (binary_round_shifted false M1 P1 E K) by (done || lia).
  rewrite (binary_round_shifted false M2 P2 E K) by (done || lia).
  apply binary_round_aux_mono; [nia|].
  rewrite (digits2_pos_shift M1 P1 K) by (done || lia).
  replace (Z.pos (digits2_pos M1) + K + (E - K))
    with (Z.pos (digits2_pos M1) + E) by lia. lia.
Qed.

(** Rounding a number of the format gives the number. *)
Lemma binary_round_valid (s : bool) (m P : positive) (e k : Z) :
  valid_binary (S754_finite s m e) = true ->
  0 <= k -> Z.pos P = Z.pos m * 2 ^ k ->
  binary_round prec emax s P (e - k) = S754_finite s m e.
Proof.
  intros Hv Hk HP.
  pose proof (valid_finite _ _ _ Hv) as (He & Hd & _).
  assert (fexp prec emax (Z.pos (digits2_pos m) + e) = e) as Hf.
  { revert Hv. unfold valid_binary, SpecFloat.valid_binary, bounded,
      canonical_mantissa. rewrite andb_true_iff, Z.eqb_eq. tauto. }
  pose proof (digits2_pos_shift m P k Hk HP) as HdP.
  rewrite (binary_round_shifted s P P (e - k) 0).
  - rewrite Z.sub_0_r.
    rewrite (binary_round_aux_shift s m P e k) by (done || lia).
    rewrite binary_round_aux_spec by lia.
    rewrite Hf, Z.sub_diag, rne_0. unfold round_result.
    pose proof (digits2_pos_bounds m) as [_ Hm].
    assert (Z.pos m < 2 ^ 53).
    { eapply Z.lt_le_trans; [exact Hm|]. apply Z.pow_le_mono_r; lia. }
    rewrite (proj2 (Z.eqb_neq _ _)) by lia.
    rewrite (proj2 (Z.eqb_neq _ _)) by lia.
    rewrite (proj2 (Z.leb_le _ _)) by lia. done.
  - done.
  - rewrite HdP.
    replace (Z.pos (digits2_pos m) + k + (e - k))
      with (Z.pos (digits2_pos m) + e) by lia. lia.
  - change (2 ^ 0) with 1. lia.
Qed.

Lemma binary_round_opp (s : bool) (M : positive) (E : Z) :
  binary_round prec emax (negb s) M E = SFopp (binary_round prec emax s M E).
Proof.
  set (K := Z.max 0 (E - fexp prec emax (Z.pos (digits2_pos M) + E))).
  assert (0 < 2 ^ K) by (apply Z.pow_pos_nonneg; lia).
  set (P := Z.to_pos (Z.pos M * 2 ^ K)).
  assert (Z.pos P = Z.pos M * 2 ^ K) as HP by (subst P; rewrite Z2Pos.id; lia).
  rewrite !(binary_round_shifted _ M P E K) by (done || lia).
  assert (0 <= fexp prec emax (Z.pos (digits2_pos P) + (E - K)) - (E - K)).
  { rewrite (digits2_pos_shift M P K) by (done || lia).
    replace (Z.pos (digits2_pos M) + K + (E - K))
      with (Z.pos (digits2_pos M) + E) by lia. lia. }
  rewrite !binary_round_aux_spec by done. apply round_result_opp.
Qed.

Lemma binary_round_cases (s : bool) (M : positive) (E : Z) :
  let r := binary_round prec emax s M E in
  r = S754_zero s \/ r = S754_infinity s \/ exists m e, r = S754_finite s m e.
Proof.
  set (K := Z.max 0 (E - fexp prec emax (Z.pos (digits2_pos M) + E))).
  assert (0 < 2 ^ K) by (apply Z.pow_pos_nonneg; lia).
  set (P := Z.to_pos (Z.pos M * 2 ^ K)).
  assert (Z.pos P = Z.pos M * 2 ^ K) as HP by (subst P; rewrite Z2Pos.id; lia).
  cbv zeta. rewrite !(binary_round_shifted _ M P E K) by (done || lia).
  assert (0 <= fexp prec emax (Z.pos (digits2_pos P) + (E - K)) - (E - K)).
  { rewrite (digits2_pos_shift M P K) by (done || lia).
    replace (Z.pos (digits2_pos M) + K + (E - K))
      with (Z.pos (digits2_pos M) + E) by lia. lia. }
  rewrite !binary_round_aux_spec by done. apply round_result_cases.
Qed.

Lemma SFleb_refl (x : spec_float) : x <> S754_nan -> SFleb x x = true.
Proof.
  intros H. unfold SFleb.
  destruct x as [s|s| |s m e]; simpl; try done.
  - by destruct s.
  - rewrite Z.compare_refl.
    change (Pos.compare_cont Eq m m) with (Pos.compare m m).
    rewrite Pos.compare_refl. by destruct s.
Qed.

(** Adding a number that is not positive does not increase a number. *)
Lemma SFadd_nonpos (X D : spec_float) :
  valid_binary X = true ->
  SFleb D (S754_zero false) = true ->
  SFadd prec emax X D = S754_nan \/ SFleb (SFadd prec emax X D) X = true.
Proof.
  intros Vx Hd.
  destruct D as [sd|sd| |sd md ed]; try discriminate Hd.
  - destruct X as [sx|sx| |sx mx ex]; cbn [SFadd]; auto; right;
      try (by destruct sx, sd); try (by destruct sx); by apply SFleb_refl.
  - destruct sd; [|discriminate Hd].
    destruct X as [sx|sx| |sx mx ex]; cbn [SFadd]; auto;
      try (destruct sx; by auto).
  - destruct sd; [|discriminate Hd].
    destruct X as [sx|sx| |sx mx ex]; cbn [SFadd]; auto;
      try (right; by destruct sx).
    right. cbv zeta.
      set (ez := Z.min ex ed).
      pose proof (shl_align_fst mx ex ez ltac:(lia)) as Ha.
      pose proof (shl_align_fst md ed ez ltac:(lia)) as Hb.
      set (a := fst (shl_align mx ex ez)) in *.
      set (b := fst (shl_align md ed ez)) in *.
      assert (binary_round prec emax false a ez = S754_finite false mx ex)
        as Hround.
      { replace ez with (ex - (ex - ez)) at 1 by lia.
        apply binary_round_valid; [done|lia|done]. }
      destruct sx; cbn [cond_Zopp Z.opp].
      * change (- Z.pos a + - Z.pos b) with (Z.neg (a + b)).
        cbn [binary_normalize].
        rewrite (binary_round_opp false (a + b) ez
                 : binary_round prec emax true _ _ = _).
        change (S754_finite true mx ex) with (SFopp (S754_finite false mx ex)).
        rewrite SFleb_opp, <- Hround.
        apply binary_round_mono. lia.
      * destruct (Z.pos a + - Z.pos b) as [|v|v] eqn:Ev; cbn [binary_normalize].
        -- done.
        -- rewrite <- Hround. apply binary_round_mono. lia.
        -- apply neg_leb_pos; [apply (binary_round_cases true)|eauto].
Qed.

Lemma binary_round_aux_valid (s : bool) (m : positive) (e : Z) :
  valid_binary (S754_finite s m e) = true ->
  binary_round_aux prec emax s (Z.pos m) e loc_Exact = S754_finite s m e.
Proof.
  intros Hv. pose proof (valid_finite _ _ _ Hv) as (He & Hd & _).
  assert (fexp prec emax (Z.pos (digits2_pos m) + e) = e) as Hf.
  { revert Hv. unfold valid_binary, SpecFloat.valid_binary, bounded,
      canonical_mantissa. rewrite andb_true_iff, Z.eqb_eq. tauto. }
  rewrite binary_round_aux_spec by lia.
  rewrite Hf, Z.sub_diag, rne_0. unfold round_result.
  pose proof (digits2_pos_bounds m) as [_ Hm].
  assert (Z.pos m < 2 ^ 53).
  { eapply Z.lt_le_trans; [exact Hm|]. apply Z.pow_le_mono_r; lia. }
  rewrite (proj2 (Z.eqb_neq _ _)) by lia.
  rewrite (proj2 (Z.eqb_neq _ _)) by lia.
  rewrite (proj2 (Z.leb_le _ _)) by lia. done.
Qed.

(** The product by one is exact. *)
Lemma SFmul_1_l (X : spec_float) :
  valid_binary X = true ->
  SFmul prec emax (S754_finite false 4503599627370496 (-52)) X = X.
Proof.
  intros Hv. destruct X as [s|s| |s m e]; try done.
  cbn [SFmul xorb].
  assert (fexp prec emax (Z.pos (digits2_pos m) + e) = e) as Hf.
  { revert Hv. unfold valid_binary, SpecFloat.valid_binary, bounded,
      canonical_mantissa. rewrite andb_true_iff, Z.eqb_eq. tauto. }
  replace (-52 + e) with (e - 52) by lia.
  rewrite (binary_round_aux_shift s m (4503599627370496 * m) e 52)
    by (rewrite ?Hf; lia).
  by apply binary_round_aux_valid.
Qed.

End Rounding.

Lemma is_nan_spec (x : float) : is_nan x = true <-> Prim2SF x = S754_nan.
Proof.
  unfold is_nan. rewrite negb_true_iff, FloatAxioms.eqb_spec. unfold SFeqb.
  destruct (SFcompare_refl (Prim2SF x)) as [H|H].
  - rewrite H. split; [done|]. intros E. by rewrite E in H.
  - by rewrite H.
Qed.

Lemma Prim2SF_1000 :
  Prim2SF 1000 = S754_finite false 8796093022208000 (-43).
Proof. reflexivity. Qed.

Lemma Prim2SF_60 : Prim2SF 60 = S754_finite false 8444249301319680 (-47).
Proof. reflexivity. Qed.

(** The products of [toMs] are monotone. *)
Lemma mul_1000_mono (x y : float) :
  (x <=? y)%float = true -> (x * 1000 <=? y * 1000)%float = true.
Proof.
  rewrite !FloatAxioms.leb_spec, !mul_spec, Prim2SF_1000.
  apply SFmul_mono; [done|apply Prim2SF_valid..].
Qed.

Lemma mul_60_mono (x y : float) :
  (x <=? y)%float = true -> (x * 60 <=? y * 60)%float = true.
Proof.
  rewrite !FloatAxioms.leb_spec, !mul_spec, Prim2SF_60.
  apply SFmul_mono; [done|apply Prim2SF_valid..].
Qed.

Lemma toMs_mono (u : TimeUnit) (x y : float) :
  (x <=? y)%float = true -> (toMs u x <=? toMs u y)%float = true.
Proof.
  intros H. destruct u; simpl; [done|by apply mul_1000_mono|].
  by apply mul_1000_mono, mul_60_mono.
Qed.

Lemma toMs_nan (u : TimeUnit) (x : float) :
  is_nan x = true -> is_nan (toMs u x) = true.
Proof.
  rewrite !is_nan_spec. intros H.
  destruct u; simpl; [done| |]; by rewrite !mul_spec, H.
Qed.

(** Adding a duration that is not positive does not increase a number. *)
Lemma add_nonpos (s d : float) :
  (d <=? 0)%float = true ->
  is_nan (s + d) = true \/ (s + d <=? s)%float = true.
Proof.
  rewrite !FloatAxioms.leb_spec, is_nan_spec, add_spec.
  change (Prim2SF 0) with (S754_zero false).
  apply SFadd_nonpos, Prim2SF_valid.
Qed.

Lemma mul_1_l (x : float) : (1 * x)%float = x.
Proof.
  apply Prim2SF_inj. rewrite mul_spec.
  change (Prim2SF 1) with (S754_finite false 4503599627370496 (-52)).
  apply SFmul_1_l, Prim2SF_valid.
Qed.

(** ** The registry *)

Lemma get_is_Some (cbs : gmap string callback) (l : string) :
  is_Some (get cbs l) <-> is_Some (cbs !! l) \/ l ∈ Object_prototype.
Proof.
  unfold get. destruct (cbs !! l) as [f|].
  - split; eauto.
  - case_bool_decide as H.
    + split; eauto.
    + split; [by intros [? ?]|]. intros [[? ?]|?]; done.
Qed.

Lemma get_own (cbs : gmap string callback) (l : string) (f : callback) :
  cbs !! l = Some f -> get cbs l = Some (own f).
Proof. intros H. unfold get. by rewrite H. Qed.

(** What the loop of [register] leaves in the registry, label by label. *)
Lemma register_fold_lookup (fns cbs : gmap string callback) ow (l : string) :
  map_fold (register_one ow) cbs fns !! l =
    match fns !! l with
    | Some fn =>
        if bool_decide (is_Some (get cbs l))
        then (if truthy ow then Some fn else cbs !! l)
        else Some fn
    | None => cbs !! l
    end.
Proof.
  apply (map_fold_weak_ind
    (fun r (m : gmap string callback) =>
       r !! l = match m !! l with
                | Some fn =>
                    if bool_decide (is_Some (get cbs l))
                    then (if truthy ow then Some fn else cbs !! l)
                    else Some fn
                | None => cbs !! l
                end)).
  - by rewrite lookup_empty.
  - intros i x m r Hi IH. unfold register_one.
    destruct (decide (i = l)) as [->|Hne].
    + rewrite lookup_insert_eq. rewrite Hi in IH.
      assert (bool_decide (is_Some (get r l))
              = bool_decide (is_Some (get cbs l))) as ->.
      { apply bool_decide_ext. by rewrite !get_is_Some, IH. }
      destruct (bool_decide (is_Some (get cbs l))); simpl.
      * destruct (truthy ow); [by rewrite lookup_insert_eq | done].
      * by rewrite lookup_insert_eq.
    + rewrite (lookup_insert_ne m) by done.
      destruct (negb _ || _); [by rewrite lookup_insert_ne | done].
Qed.

Lemma register_eq fns ow σ :
  register fns ow σ =
    (Normal tt,
     set_callbacks (map_fold (register_one ow) (callbacks σ) fns) σ).
Proof. reflexivity. Qed.

Lemma register_lookup fns ow σ l :
  callbacks (after (register fns ow) σ) !! l =
    match fns !! l with
    | Some fn =>
        if bool_decide (is_Some (get (callbacks σ) l))
        then (if truthy ow then Some fn else callbacks σ !! l)
        else Some fn
    | None => callbacks σ !! l
    end.
Proof. unfold after. rewrite register_eq. apply register_fold_lookup. Qed.

(** For a label that [Object.prototype] does not have, [register] binds
    the label exactly when it is unbound or [overwrite] is true. *)
Lemma register_first_wins (σ : state) (A : string) (f g : callback) :
  A ∉ Object_prototype ->
  callbacks σ !! A = None ->
  let σ1 := after (register {[ A := f ]} None) σ in
  callbacks σ1 !! A = Some f /\
  callbacks (after (register {[ A := g ]} None) σ1) !! A = Some f /\
  callbacks (after (register {[ A := g ]} (Some false)) σ1) !! A = Some f /\
  callbacks (after (register {[ A := g ]} (Some true)) σ1) !! A = Some g.
Proof.
  intros Hp HA σ1.
  assert (callbacks σ1 !! A = Some f) as H1.
  { subst σ1. rewrite register_lookup, lookup_singleton_eq.
    rewrite bool_decide_eq_false_2; [done|].
    rewrite get_is_Some, HA. by intros [[? ?]|?]. }
  split; [done|].
  repeat split; rewrite register_lookup, lookup_singleton_eq;
    (rewrite bool_decide_eq_true_2 by (rewrite get_is_Some, H1; eauto));
    done.
Qed.

(** C8. [register({toString: f})] on a new engine binds nothing:
    [callbacks["toString"]] is the function that [{}] inherits from
    [Object.prototype], so the test [! callbacks[f]] fails although no action
    was registered for the label.  The registry stays empty, the label is not
    bound to [f], and [play] throws as if [register] had not been called.
    (For the labels that [Object.prototype] does not have the claim holds,
    see [register_first_wins].) *)
Theorem register_misses_inherited_label :
  let σ0 := engine (Array [Entry "toString" 0 1]) (Some "s"%string) in
  let σ1 := after (register {[ "toString"%string := fn_f ]} None) σ0 in
  callbacks σ0 !! "toString"%string = None /\
  callbacks σ1 !! "toString"%string = None /\
  callbacks σ1 = ∅ /\
  get (callbacks σ1) "toString" = Some (inherited "toString") /\
  play None σ1 = (Throw (Error msg_noActions), σ1).
Proof. repeat split. Qed.

(** ** The guard of playback *)

Lemma ensureNonEmpty_empty σ :
  callbacks σ = ∅ -> ensureNonEmpty σ = (Throw (Error msg_noActions), σ).
Proof.
  intros H. unfold ensureNonEmpty, mbind, M_bind, bind, gets.
  by rewrite bool_decide_eq_true_2.
Qed.

Lemma ensureNonEmpty_nonempty σ :
  callbacks σ <> ∅ -> ensureNonEmpty σ = (Normal tt, σ).
Proof.
  intros H. unfold ensureNonEmpty, mbind, M_bind, bind, gets.
  by rewrite bool_decide_eq_false_2.
Qed.

(** C6. When the registry is empty, [play] and [frameApply] throw the error
    "No actions assigned to animations, see 'register()'" and leave the whole
    state (the list [promises], the promises of the host, the console) as it
    was: nothing is scheduled. *)
Theorem playback_of_empty_registry_throws
    (σ : state) (fuel : nat) (fps t : option float) :
  callbacks σ = ∅ ->
  play t σ = (Throw (Error msg_noActions), σ) /\
  frameApply fuel fps t σ = (Throw (Error msg_noActions), σ) /\
  String.prefix "No actions assigned to animations" msg_noActions = true.
Proof.
  intros H. split; [|split; [|reflexivity]].
  - unfold play, mbind, M_bind, bind. by rewrite ensureNonEmpty_empty.
  - unfold frameApply, mbind, M_bind, bind. by rewrite ensureNonEmpty_empty.
Qed.

Lemma playback_of_empty_registry_throws_witness :
  let σ := engine (Array [anim_X]) (Some "s"%string) in
  play None σ = (Throw (Error msg_noActions), σ) /\
  frameApply 100 (Some 2%float) None σ = (Throw (Error msg_noActions), σ).
Proof.
  intros σ.
  destruct (playback_of_empty_registry_throws σ 100 (Some 2%float) None)
    as (H1 & H2 & _); [reflexivity|].
  split; [exact H1 | exact H2].
Defined.

(** ** The query [frameTiming] *)

Lemma frameTiming_eq (t : option float) σ :
  frameTiming t σ =
    (Normal (List.filter (active (timeUnit σ) (or_default t 0))
               (timingInfo σ)), σ).
Proof. reflexivity. Qed.

(** [frameTiming] gives the same answer at [t] and at [t || 0], for a number
    [t]. *)
Lemma active_or_default (u : TimeUnit) (t : float) (e : entry) :
  is_nan t = false ->
  active u (or_default (Some t) 0) e = active u t e.
Proof.
  intros Hn. destruct (or_default_zero t Hn) as [->|[-> Hz]]; [done|].
  unfold active.
  by rewrite (eqb_leb_r _ _ _ Hz), (eqb_ltb_l _ _ _ Hz).
Qed.

(** C5. [frameTiming(t)] returns, changes nothing, does not look at the
    registry, and yields the entries of the table, in table order, that pass
    the test of the source at [t || 0].  For a number [t] (not [NaN]) these
    are the entries with [toMs(start) <= t < toMs(start + durn)], the
    conversions and comparisons being those of the source: an entry is not
    returned at [t = toMs(start + durn)], and at [t = toMs(start)] the lower
    bound holds, so that the entry is returned when its interval is not
    empty. *)
Theorem frameTiming_half_open (t : float) (σ : state) :
  let u := timeUnit σ in
  let answer :=
    List.filter (active u (or_default (Some t) 0)) (timingInfo σ) in
  frameTiming (Some t) σ = (Normal answer, σ) /\
  (forall cbs, fst (frameTiming (Some t) (set_callbacks cbs σ)) = Normal answer) /\
  (is_nan t = false ->
   (forall e, In e answer <->
      In e (timingInfo σ) /\
      (toMs u (start e) <=? t)%float = true /\
      (t <? toMs u (start e + durn e))%float = true) /\
   (forall e, (t =? toMs u (start e + durn e))%float = true ->
      ~ In e answer) /\
   (forall e, (t =? toMs u (start e))%float = true ->
      (In e answer <->
       In e (timingInfo σ) /\
       (toMs u (start e) <? toMs u (start e + durn e))%float = true))).
Proof.
  intros u answer. split; [reflexivity|]. split; [reflexivity|].
  intros Hn.
  assert (forall e, In e answer <->
     In e (timingInfo σ) /\
     (toMs u (start e) <=? t)%float = true /\
     (t <? toMs u (start e + durn e))%float = true) as Hin.
  { intros e. subst answer. rewrite filter_In, active_or_default by done.
    unfold active. by rewrite andb_true_iff. }
  split; [exact Hin|]. split.
  - intros e He. rewrite Hin. intros (_ & _ & Hlt).
    rewrite (eqb_ltb_l _ _ _ He), ltb_irrefl in Hlt. discriminate.
  - intros e He. rewrite Hin.
    rewrite (eqb_leb_r _ _ _ He), (eqb_ltb_l _ _ _ He).
    rewrite leb_refl by (by apply eqb_not_nan in He as [_ ?]).
    tauto.
Qed.

Lemma frameTiming_half_open_witness :
  frameTiming (Some 0%float) engine_X = (Normal [anim_X], engine_X) /\
  frameTiming (Some 999%float) engine_X = (Normal [anim_X], engine_X) /\
  frameTiming (Some 1000%float) engine_X = (Normal [], engine_X) /\
  ~ In anim_X (List.filter (active U_s (or_default (Some 1000%float) 0)) [anim_X]).
Proof.
  split; [|split; [|split]].
  - exact (proj1 (frameTiming_half_open 0 engine_X)).
  - exact (proj1 (frameTiming_half_open 999 engine_X)).
  - exact (proj1 (frameTiming_half_open 1000 engine_X)).
  - destruct (frameTiming_half_open 1000 engine_X) as (_ & _ & H).
    destruct H as (_ & H & _); [reflexivity|].
    apply (H anim_X). reflexivity.
Defined.

(** ** Playback *)

Lemma playFrame_eq (a : entry) (t : float) σ :
  playFrame a t σ = (Normal tt, schedule (fun _ => t) [a] σ).
Proof.
  unfold playFrame, schedule, registered, mbind, M_bind, bind, gets. simpl.
  destruct (get (callbacks σ) (label a)) as [v|] eqn:E.
  - rewrite bool_decide_eq_true_2 by eauto. simpl.
    destruct σ; simpl. by rewrite !app_nil_r.
  - rewrite bool_decide_eq_false_2 by (intros [? ?]; discriminate). simpl.
    destruct σ; simpl. by rewrite !app_nil_r.
Qed.

Lemma schedule_nil d σ : schedule d [] σ = σ.
Proof. unfold schedule. destruct σ; simpl. by rewrite !app_nil_r. Qed.

Lemma schedule_cons d a l σ :
  schedule d (a :: l) σ = schedule d l (schedule (fun _ => d a) [a] σ).
Proof.
  unfold schedule, registered. simpl.
  destruct (bool_decide (is_Some (get (callbacks σ) (label a)))); simpl.
  - rewrite !app_nil_r, length_app, <- !app_assoc. simpl.
    by rewrite Nat.add_1_r.
  - by rewrite !app_nil_r, <- !app_assoc.
Qed.

(** [_.each(l, function (a) { playFrame(a, d(a)); })] *)
Lemma each_playFrame (d : entry -> float) (l : list entry) σ :
  each l (fun a => playFrame a (d a)) σ = (Normal tt, schedule d l σ).
Proof.
  revert σ. induction l as [|a l IH]; intros σ; simpl.
  - by rewrite schedule_nil.
  - unfold mbind, M_bind, bind. rewrite playFrame_eq, IH.
    by rewrite (schedule_cons d a l).
Qed.

(** What [play] does on an engine with actions: the body of its loop is
    that of [playFrame], and every entry for which [callbacks[anim.label]] is
    truthy is scheduled at [t + toMs(anim.start)], where [t] is the argument,
    or 0 when there is none. *)
Lemma play_eq (t : option float) σ :
  callbacks σ <> ∅ ->
  play t σ =
    (Normal tt,
     schedule (fun a => or_default t 0 + toMs (timeUnit σ) (start a))%float
       (timingInfo σ) σ).
Proof.
  intros H. unfold play, mbind, M_bind, bind.
  rewrite ensureNonEmpty_nonempty by done. simpl.
  change (each (timingInfo σ) _ σ)
    with (each (timingInfo σ)
            (fun a => playFrame a
               (or_default t 0 + toMs (timeUnit σ) (start a))%float) σ).
  by rewrite each_playFrame.
Qed.

(** C1. On the engine with table [[{label: "X", start: 0, durn: 1}]], unit
    ["s"] and an action for [X], [play(0)] schedules one call at 0 ms, and
    [play(2)] returns having scheduled one call at 2 ms, not at 2000 ms: the
    argument of [play] is added to the delay without conversion by [toMs]
    (see [play_eq]). *)
Theorem play_delay_is_not_converted :
  scheduled (after (play (Some 0%float)) engine_X) = [("X"%string, 0%float)] /\
  fst (play (Some 2%float) engine_X) = Normal tt /\
  scheduled (after (play (Some 2%float)) engine_X) = [("X"%string, 2%float)] /\
  heap (after (play (Some 2%float)) engine_X)
    = [Promise (2 + toMs U_s 0) anim_X Pending].
Proof. repeat split. Qed.

(** ** The loops of [frameApply] *)

(** Playback maps a state to a [schedule] of it, again and again; what
    [schedule] preserves, the second loop preserves. *)
Lemma frames_loop_preserves (P : state -> Prop) :
  (forall d l σ, P σ -> P (schedule d l σ)) ->
  forall fuel increment times i σ,
    P σ -> P (snd (frames_loop fuel increment times i σ)).
Proof.
  intros HP. induction fuel as [|fuel IH]; intros increment times i σ H.
  - done.
  - simpl. destruct (lt_last i times); [|done].
    unfold mbind, M_bind, bind. rewrite frameTiming_eq.
    unfold singleTiming. rewrite (each_playFrame (fun _ => i)).
    apply IH, HP, H.
Qed.

(** The second loop does not throw. *)
Lemma frames_loop_no_throw fuel increment times i σ (e : error) :
  fst (frames_loop fuel increment times i σ) <> Throw e.
Proof.
  revert i σ. induction fuel as [|fuel IH]; intros i σ; [done|].
  simpl. destruct (lt_last i times); [|done].
  unfold mbind, M_bind, bind. rewrite frameTiming_eq.
  unfold singleTiming. rewrite (each_playFrame (fun _ => i)).
  apply IH.
Qed.

(** [frameApply] up to its loops. *)
Lemma frameApply_eq (fuel : nat) (fps t : option float) σ :
  callbacks σ <> ∅ ->
  frameApply fuel fps t σ =
    let t := toMs (timeUnit σ) (or_default t 0) in
    let fps := or_default fps 10 in
    if (fps <=? 0)%float then (Throw (Error msg_fps), σ) else
    let increment := (1000 / fps)%float in
    let durn := total_durn (timeUnit σ) (timingInfo σ) in
    match times_loop fuel increment durn t 0 [] with
    | None => (OutOfFuel, σ)
    | Some times =>
        (frames_loop fuel increment times t;; Promise_all) σ
    end.
Proof.
  intros H. unfold frameApply at 1, mbind at 1 2 3, M_bind, bind.
  rewrite ensureNonEmpty_nonempty by done.
  cbv beta iota zeta delta [gets throw].
  destruct (_ <=? 0)%float; [done|].
  by destruct (times_loop _ _ _ _ _ _).
Qed.

(** How [frameApply] ends: with the error of the guard, with the error of
    the check of [fps], or without an error. *)
Lemma frameApply_outcome (fuel : nat) (fps t : option float) σ :
  (callbacks σ = ∅ /\
   fst (frameApply fuel fps t σ) = Throw (Error msg_noActions)) \/
  (callbacks σ <> ∅ /\ (or_default fps 10 <=? 0)%float = true /\
   frameApply fuel fps t σ = (Throw (Error msg_fps), σ)) \/
  (callbacks σ <> ∅ /\ (or_default fps 10 <=? 0)%float = false /\
   (fst (frameApply fuel fps t σ) = Normal tt \/
    fst (frameApply fuel fps t σ) = OutOfFuel)).
Proof.
  destruct (decide (callbacks σ = ∅)) as [He|Hne].
  { left. split; [done|]. unfold frameApply, mbind, M_bind, bind.
    by rewrite ensureNonEmpty_empty. }
  right. rewrite frameApply_eq by done. cbv zeta.
  destruct (or_default fps 10 <=? 0)%float eqn:Hf; [by left|].
  right. split; [done|]. split; [done|].
  destruct (times_loop _ _ _ _ _ _) as [times|]; [|by right].
  unfold mbind, M_bind, bind.
  pose proof (frames_loop_no_throw fuel (1000 / or_default fps 10) times
    (toMs (timeUnit σ) (or_default t 0)) σ) as Hn.
  destruct (frames_loop _ _ _ _ σ) as [[[]|e|] σ']; simpl in *; auto.
  by destruct (Hn e).
Qed.

Lemma frameApply_preserves (P : state -> Prop) :
  (forall d l σ, P σ -> P (schedule d l σ)) ->
  forall fuel fps t σ, P σ -> P (snd (frameApply fuel fps t σ)).
Proof.
  intros HP fuel fps t σ H.
  destruct (decide (callbacks σ = ∅)) as [He|Hne].
  { unfold frameApply, mbind, M_bind, bind.
    by rewrite ensureNonEmpty_empty. }
  rewrite frameApply_eq by done. cbv zeta.
  destruct (_ <=? 0)%float; [done|].
  destruct (times_loop _ _ _ _ _ _) as [times|]; [|done].
  unfold mbind, M_bind, bind.
  pose proof (frames_loop_preserves P HP fuel
    (1000 / or_default fps 10)%float times
    (toMs (timeUnit σ) (or_default t 0)) σ H) as Hs.
  destruct (frames_loop _ _ _ _ σ) as [[| |] σ']; done.
Qed.

Lemma play_preserves (P : state -> Prop) :
  (forall d l σ, P σ -> P (schedule d l σ)) ->
  forall t σ, P σ -> P (snd (play t σ)).
Proof.
  intros HP t σ H.
  destruct (decide (callbacks σ = ∅)) as [He|Hne].
  - unfold play, mbind, M_bind, bind. by rewrite ensureNonEmpty_empty.
  - rewrite play_eq by done. by apply HP.
Qed.

(** C2. On the engine with table [[{label: "Y", start: 0, durn: 1}]], unit
    ["s"] and an action for [Y], [frameApply(2)] computes the sample instants
    0 and 500 but returns having scheduled [Y] once, at 0 ms: its second loop
    runs while [i < _.last(times)] and so leaves out the last instant. *)
Theorem frameApply_skips_last_frame :
  fst (frameApply 100 (Some 2%float) None engine_Y) = Normal tt /\
  times_loop 100 (1000 / 2) 1000 0 0 [] = Some [0%float; 500%float] /\
  scheduled (after (frameApply 100 (Some 2%float) None) engine_Y)
    = [("Y"%string, 0%float)] /\
  length (heap (after (frameApply 100 (Some 2%float) None) engine_Y)) = 1.
Proof. repeat split. Qed.

(** C3. [frameApply(0)] does not throw: on the engine with table
    [[{label: "Y", start: 0, durn: 1}]], unit ["s"] and an action for [Y] it
    returns and schedules nine calls, as [frameApply(10)] does.  (A negative
    [fps] does throw, see [frameApply_negative_fps].) *)
Theorem frameApply_zero_fps_is_accepted :
  fst (frameApply 100 (Some 0%float) None engine_Y) = Normal tt /\
  scheduled (after (frameApply 100 (Some 0%float) None) engine_Y)
    = map (fun t => ("Y"%string, t))
        [0; 100; 200; 300; 400; 500; 600; 700; 800]%float.
Proof. split; vm_compute; reflexivity. Qed.

(** A negative [fps] is refused, and nothing is scheduled. *)
Lemma frameApply_negative_fps (fuel : nat) (fps : float) (t : option float) σ :
  callbacks σ <> ∅ -> (fps <? 0)%float = true ->
  frameApply fuel (Some fps) t σ = (Throw (Error msg_fps), σ).
Proof.
  intros Hne Hneg. rewrite frameApply_eq by done. cbv zeta.
  assert (or_default (Some fps) 10 = fps) as ->.
  { unfold or_default, falsy.
    rewrite (ltb_not_eqb _ _ Hneg), (proj1 (ltb_not_nan _ _ Hneg)). done. }
  by rewrite leb_ltb_eqb, Hneg.
Qed.

(** C10. For every [fps] that is zero and every delay, [frameApply(fps, d)]
    is [frameApply(10, d)], and also [frameApply(undefined, d)]: [fps] is
    replaced by 10 before the check, the increment is 100 ms, and the two
    calls have the same outcome and the same final state, whatever the number
    of turns their loops are given.  On an engine with actions the call does
    not throw. *)
Theorem frameApply_zero_fps_is_default
    (fuel : nat) (z : float) (d : option float) (σ : state) :
  (z =? 0)%float = true ->
  callbacks σ <> ∅ ->
  frameApply fuel (Some z) d σ = frameApply fuel (Some 10%float) d σ /\
  frameApply fuel (Some z) d σ = frameApply fuel None d σ /\
  or_default (Some z) 10 = 10%float /\
  (1000 / or_default (Some z) 10)%float = 100%float /\
  forall e, fst (frameApply fuel (Some z) d σ) <> Throw e.
Proof.
  intros Hz Hne.
  assert (or_default (Some z) 10 = 10%float) as Hd.
  { apply or_default_falsy. unfold falsy. by rewrite Hz. }
  split; [|split; [|split; [exact Hd|split]]].
  - rewrite !frameApply_eq by done. cbv zeta. by rewrite Hd.
  - rewrite !frameApply_eq by done. cbv zeta. by rewrite Hd.
  - by rewrite Hd.
  - intros e.
    destruct (frameApply_outcome fuel (Some z) d σ)
      as [[He _]|[(_ & Hf & _)|(_ & _ & [-> | ->])]]; try done.
    rewrite Hd in Hf. discriminate.
Qed.

Lemma frameApply_zero_fps_is_default_witness :
  frameApply 100 (Some 0%float) None engine_Y
    = frameApply 100 (Some 10%float) None engine_Y /\
  scheduled (after (frameApply 100 (Some 0%float) None) engine_Y)
    = map (fun t => ("Y"%string, t))
        [0; 100; 200; 300; 400; 500; 600; 700; 800]%float /\
  fst (frameApply 100 (Some 0%float) None engine_Y) <> Throw (Error msg_fps).
Proof.
  destruct (frameApply_zero_fps_is_default 100 0 None engine_Y)
    as (H1 & _ & _ & _ & H2).
  - reflexivity.
  - vm_compute. discriminate.
  - split; [exact H1|]. split; [|apply H2].
    unfold after. rewrite H1. vm_compute. reflexivity.
Defined.

(** ** Timers and cancellation *)

Lemma fire_eq (p : nat) σ :
  fire p σ =
    (Normal tt,
     match heap σ !! p with
     | Some (Promise d a Pending) =>
         let σ1 := set_heap (<[p := Promise d a Fired]> (heap σ)) σ in
         match get (callbacks σ) (label a) with
         | Some v =>
             if callable v then set_calls (calls σ ++ [Call p v a]) σ1
             else σ1
         | None => σ1
         end
     | _ => σ
     end).
Proof.
  unfold fire, mbind, M_bind, bind, gets. simpl.
  destruct (heap σ !! p) as [[d a []]|]; try done.
  simpl. destruct (get (callbacks σ) (label a)) as [v|]; [|done].
  by destruct (callable v).
Qed.

Lemma Promise_cancel_eq (reason : string) (p : nat) σ :
  Promise_cancel reason p σ =
    (Normal tt, set_heap (alter cancelled p (heap σ)) σ).
Proof.
  unfold Promise_cancel, modify. f_equal.
  destruct (heap σ !! p) as [[d a st]|] eqn:E.
  - assert (alter cancelled p (heap σ)
            = <[p := cancelled (Promise d a st)]> (heap σ)) as ->.
    { apply list_eq. intros i. rewrite list_lookup_alter, list_lookup_insert.
      destruct (decide (p = i)) as [<-|H].
      - rewrite E. simpl.
        by rewrite decide_True by (split; [done|by eapply lookup_lt_Some]).
      - rewrite decide_False; [done|]. by intros [? _]. }
    destruct st; try done.
    all: unfold cancelled; simpl; rewrite list_insert_id by done.
    all: by destruct σ.
  - assert (alter cancelled p (heap σ) = heap σ) as ->; [|by destruct σ].
    apply list_eq. intros i. rewrite list_lookup_alter.
    case_decide; [|done]. subst. by rewrite E.
Qed.

Lemma each_Promise_cancel (reason : string) (ps : list nat) σ :
  each ps (Promise_cancel reason) σ
    = (Normal tt, set_heap (cancel_all ps (heap σ)) σ).
Proof.
  revert σ. induction ps as [|p ps IH]; intros σ; simpl.
  - by destruct σ.
  - unfold mbind, M_bind, bind. by rewrite Promise_cancel_eq, IH.
Qed.

Lemma cancel_eq σ :
  cancel σ =
    (Normal tt,
     set_promises [] (set_heap (cancel_all (promises σ) (heap σ)) σ)).
Proof.
  unfold cancel, mbind, M_bind, bind, gets.
  by rewrite each_Promise_cancel.
Qed.

Lemma cancelled_idemp pr : cancelled (cancelled pr) = cancelled pr.
Proof. by destruct pr as [d a []]. Qed.

Lemma cancelled_not_pending pr : settled (cancelled pr) <> Pending.
Proof. by destruct pr as [d a []]. Qed.

Lemma cancelled_settled pr : settled pr <> Pending -> cancelled pr = pr.
Proof. by destruct pr as [d a []]. Qed.

Lemma lookup_cancel_all (ps : list nat) (h : list promise) (q : nat) :
  cancel_all ps h !! q =
    if decide (q ∈ ps) then cancelled <$> h !! q else h !! q.
Proof.
  revert h. induction ps as [|p ps IH]; intros h.
  - rewrite decide_False; [done | apply not_elem_of_nil].
  - change (cancel_all (p :: ps) h) with (cancel_all ps (alter cancelled p h)).
    rewrite IH, list_lookup_alter.
    destruct (decide (q ∈ ps)) as [H1|H1];
      destruct (decide (p = q)) as [->|H2];
      destruct (decide (_ ∈ _ :: _)) as [H3|H3];
      rewrite elem_of_cons in H3;
      try (exfalso; intuition congruence); try done.
    destruct (h !! q); simpl; [|done]. by rewrite cancelled_idemp.
Qed.

(** ** What holds of every reachable engine *)

Lemma tracked_schedule d l σ : tracked σ -> tracked (schedule d l σ).
Proof.
  intros (Ha & Hb & Hc). unfold tracked, schedule. simpl.
  split; [|split].
  - intros p Hp. rewrite length_app, length_map.
    apply elem_of_app in Hp as [Hp|Hp]; [apply Ha in Hp; lia|].
    apply elem_of_seq in Hp. lia.
  - intros p pr Hl Hs. apply elem_of_app.
    apply lookup_app_Some in Hl as [Hl|[Hge Hl]]; [left; eauto|].
    right. apply lookup_lt_Some in Hl. rewrite length_map in Hl.
    apply elem_of_seq. lia.
  - intros c Hin. destruct (Hc c Hin) as (pr & H1 & H2).
    exists pr. split; [by apply lookup_app_l_Some | done].
Qed.

Lemma tracked_fire p σ : tracked σ -> tracked (snd (fire p σ)).
Proof.
  intros (Ha & Hb & Hc). rewrite fire_eq. simpl.
  destruct (heap σ !! p) as [[d a st]|] eqn:E; [|done].
  destruct st; try done.
  assert (tracked (set_heap (<[p:=Promise d a Fired]> (heap σ)) σ)) as H1.
  { split; [|split]; simpl.
    - intros q Hq. rewrite length_insert. by apply Ha.
    - intros q pr Hl Hs. rewrite list_lookup_insert in Hl.
      case_decide as Hd; [|eauto].
      injection Hl as <-. discriminate.
    - intros c Hin. destruct (Hc c Hin) as (pr & H1 & H2).
      exists pr. split; [|done]. rewrite list_lookup_insert_ne; [done|].
      intros Heq. rewrite <- Heq, E in H1. injection H1 as <-. discriminate. }
  destruct (get (callbacks σ) (label a)) as [f|]; [|exact H1].
  destruct (callable f); [|exact H1].
  destruct H1 as (Ha' & Hb' & Hc'). split; [|split]; simpl in *.
  - exact Ha'.
  - exact Hb'.
  - intros c Hin. apply elem_of_app in Hin as [Hin|Hin]; [eauto|].
    apply list_elem_of_singleton in Hin as ->. simpl.
    exists (Promise d a Fired). split; [|done].
    apply list_lookup_insert_eq. by eapply lookup_lt_Some.
Qed.

Lemma tracked_cancel σ : tracked σ -> tracked (snd (cancel σ)).
Proof.
  intros (Ha & Hb & Hc). rewrite cancel_eq. split; [|split]; simpl.
  - intros p Hp. by apply elem_of_nil in Hp.
  - intros p pr Hl Hs. exfalso. rewrite lookup_cancel_all in Hl.
    case_decide as Hin.
    + destruct (heap σ !! p) as [pr'|]; [|done]. injection Hl as <-.
      by apply cancelled_not_pending in Hs.
    + apply Hin. eauto.
  - intros c Hin. destruct (Hc c Hin) as (pr & H1 & H2).
    exists pr. split; [|done]. rewrite lookup_cancel_all, H1.
    case_decide; [|done]. simpl. f_equal.
    apply cancelled_settled. by rewrite H2.
Qed.

Lemma frameTiming_pure (t : option float) σ : snd (frameTiming t σ) = σ.
Proof. reflexivity. Qed.

Lemma tracked_step a σ : tracked σ -> tracked (step a σ).
Proof.
  intros H. destruct a as [fns ow|t|fuel fps t|t| |p]; unfold step.
  - exact H.
  - by apply (play_preserves tracked tracked_schedule).
  - by apply (frameApply_preserves tracked tracked_schedule).
  - by rewrite frameTiming_pure.
  - by apply tracked_cancel.
  - by apply tracked_fire.
Qed.

Lemma tracked_run acts σ : tracked σ -> tracked (run acts σ).
Proof.
  revert σ. induction acts as [|a acts IH]; intros σ H; [done|].
  apply IH, tracked_step, H.
Qed.

Lemma tracked_reachable σ : reachable σ -> tracked σ.
Proof.
  intros (ti & tu & σ0 & acts & Hnew & ->). apply tracked_run.
  unfold TimingManager in Hnew.
  destruct (parse_timeUnit _); [|done]. injection Hnew as <-.
  split; [|split]; simpl.
  - intros p Hp. by apply elem_of_nil in Hp.
  - intros p pr Hl. by rewrite lookup_nil in Hl.
  - intros c Hin. by apply elem_of_nil in Hin.
Qed.

(** A promise that is settled (fired or cancelled) stays as it is, and its
    handler makes no further call, whatever happens next. *)
Lemma settled_step a σ p pr :
  heap σ !! p = Some pr -> settled pr <> Pending ->
  heap (step a σ) !! p = Some pr /\ calls_by p (step a σ) = calls_by p σ.
Proof.
  intros Hl Hs.
  set (P := fun σ' => heap σ' !! p = Some pr /\ calls_by p σ' = calls_by p σ).
  assert (forall d l σ', P σ' -> P (schedule d l σ')) as HP.
  { intros d l σ' [H1 H2]. split; [|exact H2].
    by apply lookup_app_l_Some. }
  assert (P σ) as H0 by done.
  destruct a as [fns ow|t|fuel fps t|t| |q]; unfold step.
  - done.
  - by apply (play_preserves P HP).
  - by apply (frameApply_preserves P HP).
  - by rewrite frameTiming_pure.
  - rewrite cancel_eq. simpl. split; [|done].
    rewrite lookup_cancel_all, Hl. case_decide; [|done].
    simpl. by rewrite cancelled_settled.
  - rewrite fire_eq. simpl.
    destruct (heap σ !! q) as [[d a st]|] eqn:E; [|done].
    destruct st; try done.
    assert (q <> p) as Hne.
    { intros ->. rewrite E in Hl. injection Hl as <-. by apply Hs. }
    destruct (get (callbacks σ) (label a)) as [f|]; simpl.
    + destruct (callable f); simpl.
      * split; [by rewrite list_lookup_insert_ne|].
        unfold calls_by. simpl. rewrite List.filter_app. simpl.
        apply Nat.eqb_neq in Hne. by rewrite Hne, app_nil_r.
      * split; [by rewrite list_lookup_insert_ne | done].
    + split; [by rewrite list_lookup_insert_ne | done].
Qed.

Lemma settled_run acts σ p pr :
  heap σ !! p = Some pr -> settled pr <> Pending ->
  heap (run acts σ) !! p = Some pr /\ calls_by p (run acts σ) = calls_by p σ.
Proof.
  revert σ. induction acts as [|a acts IH]; intros σ Hl Hs; [done|].
  destruct (settled_step a σ p pr Hl Hs) as [H1 H2].
  destruct (IH (step a σ) H1 Hs) as [H3 H4].
  split; [exact H3|]. by rewrite <- H2.
Qed.

(** When no promise is pending, timers do nothing. *)
Lemma fire_settled p σ :
  (forall q pr, heap σ !! q = Some pr -> settled pr <> Pending) ->
  fire p σ = (Normal tt, σ).
Proof.
  intros H. rewrite fire_eq.
  destruct (heap σ !! p) as [[d a st]|] eqn:E; [|done].
  destruct st; try done. by destruct (H p _ E).
Qed.

Lemma run_fire_settled ps σ :
  (forall q pr, heap σ !! q = Some pr -> settled pr <> Pending) ->
  run (do_fire <$> ps) σ = σ.
Proof.
  intros H. induction ps as [|p ps IH]; [done|].
  simpl. by rewrite fire_settled.
Qed.

Lemma pending_no_calls σ p pr :
  tracked σ -> heap σ !! p = Some pr -> settled pr = Pending ->
  calls_by p σ = [].
Proof.
  intros (_ & _ & Hc) Hl Hs. unfold calls_by.
  induction (calls σ) as [|c cs IH]; [done|]. simpl.
  destruct (Nat.eqb_spec (by_promise c) p) as [Heq|Hne].
  - destruct (Hc c) as (pr' & H1 & H2); [by left|].
    rewrite Heq, Hl in H1. injection H1 as <-. congruence.
  - apply IH. intros c' Hin. apply Hc. by right.
Qed.

(** C7. [cancel()] on a reachable engine returns, rejects every promise of
    [promises] that is pending, and empties [promises]; it makes no call.
    Afterwards the handler of a promise that was in [promises] never makes a
    call again, whatever methods are called and timers fire: one that had not
    fired has made no call and never makes one, and when only timers fire the
    record of calls stays as it was.  With no promise outstanding [cancel()]
    changes nothing, and a second [cancel()] changes nothing. *)
Theorem cancel_rejects_and_clears (σ : state) :
  reachable σ ->
  let σ' := after cancel σ in
  fst (cancel σ) = Normal tt /\
  promises σ' = [] /\
  calls σ' = calls σ /\
  (forall p, p ∈ promises σ ->
     exists pr, heap σ !! p = Some pr /\ heap σ' !! p = Some (cancelled pr)) /\
  (forall p acts, p ∈ promises σ ->
     calls_by p (run acts σ') = calls_by p σ) /\
  (forall p pr acts, heap σ !! p = Some pr -> settled pr = Pending ->
     p ∈ promises σ /\ calls_by p (run acts σ') = []) /\
  (forall ps, calls (run (do_fire <$> ps) σ') = calls σ) /\
  (promises σ = [] -> σ' = σ) /\
  after cancel σ' = σ'.
Proof.
  intros Hr σ'. pose proof (tracked_reachable σ Hr) as Ht.
  destruct Ht as (Ha & Hb & Hc).
  assert (forall p, p ∈ promises σ ->
     exists pr, heap σ !! p = Some pr /\
       heap σ' !! p = Some (cancelled pr)) as Hrej.
  { intros p Hp. destruct (lookup_lt_is_Some_2 (heap σ) p (Ha p Hp)) as [pr E].
    exists pr. split; [done|]. subst σ'. unfold after. rewrite cancel_eq.
    simpl. rewrite lookup_cancel_all, E. by rewrite decide_True. }
  assert (forall p acts, p ∈ promises σ ->
     calls_by p (run acts σ') = calls_by p σ) as Hnever.
  { intros p acts Hp. destruct (Hrej p Hp) as (pr & _ & E).
    destruct (settled_run acts σ' p _ E (cancelled_not_pending pr)) as [_ ->].
    subst σ'. unfold after. by rewrite cancel_eq. }
  assert (forall q pr, heap σ' !! q = Some pr -> settled pr <> Pending)
    as Hnone.
  { intros q pr. subst σ'. unfold after. rewrite cancel_eq. simpl.
    rewrite lookup_cancel_all. case_decide as Hin.
    - destruct (heap σ !! q) as [pr'|]; [|done]. intros [= <-].
      apply cancelled_not_pending.
    - intros Hl Hs. apply Hin. eauto. }
  assert (promises σ' = []) as Hempty
    by (subst σ'; unfold after; by rewrite cancel_eq).
  assert (forall τ, promises τ = [] -> after cancel τ = τ) as Hnoop.
  { intros τ Hτ. unfold after. rewrite cancel_eq, Hτ. by destruct τ; simplify_eq/=. }
  split; [by rewrite cancel_eq|]. split; [exact Hempty|].
  split; [subst σ'; unfold after; by rewrite cancel_eq|].
  split; [exact Hrej|]. split; [exact Hnever|].
  split; [|split; [|split]].
  - intros p pr acts Hl Hs. split; [eauto|].
    rewrite Hnever by eauto.
    by apply (pending_no_calls σ p pr).
  - intros ps. rewrite run_fire_settled by exact Hnone.
    subst σ'. unfold after. by rewrite cancel_eq.
  - apply Hnoop.
  - by apply Hnoop.
Qed.

Lemma cancel_rejects_and_clears_witness :
  let σ := after (play None) engine_X in
  promises σ = [0] /\
  promises (after cancel σ) = [] /\
  calls (run [do_fire 0] (after cancel σ)) = [].
Proof.
  intros σ.
  assert (reachable σ) as Hr.
  { exists (Array [anim_X]), (Some "s"%string),
      (engine (Array [anim_X]) (Some "s"%string)),
      [do_register {[ "X"%string := fn_f ]} None; do_play None].
    split; reflexivity. }
  destruct (cancel_rejects_and_clears σ Hr)
    as (_ & H1 & _ & _ & _ & _ & H2 & _).
  split; [reflexivity|]. split; [exact H1 | exact (H2 [0])].
Defined.

(** ** Which action a promise calls *)

(** A promise made by a playback is pending, its label had an action when
    it was made, and the playback itself changes neither the registry nor the
    record of calls. *)
Lemma playback_makes_pending (σ0 : state) (a : action) :
  (exists t, a = do_play t) \/
  (exists fuel fps t, a = do_frameApply fuel fps t) ->
  callbacks (step a σ0) = callbacks σ0 /\
  calls (step a σ0) = calls σ0 /\
  forall p pr, heap σ0 !! p = None -> heap (step a σ0) !! p = Some pr ->
    settled pr = Pending /\
    is_Some (get (callbacks σ0) (label (anim pr))).
Proof.
  intros Ha.
  set (P := fun σ =>
    callbacks σ = callbacks σ0 /\ calls σ = calls σ0 /\
    forall p pr, heap σ0 !! p = None -> heap σ !! p = Some pr ->
      settled pr = Pending /\
      is_Some (get (callbacks σ0) (label (anim pr)))).
  assert (forall d l σ, P σ -> P (schedule d l σ)) as HP.
  { intros d l σ (H1 & H2 & H3). split; [exact H1|]. split; [exact H2|].
    intros p pr Hn Hl. simpl in Hl.
    apply lookup_app_Some in Hl as [Hl|[_ Hl]]; [eauto|].
    apply list_elem_of_lookup_2, list_elem_of_In, in_map_iff in Hl.
    destruct Hl as (e & <- & He). apply filter_In in He as [_ He].
    split; [done|]. simpl. unfold registered in He.
    apply bool_decide_eq_true_1 in He. by rewrite <- H1. }
  assert (P σ0) as H0.
  { split; [done|]. split; [done|]. intros p pr Hn Hl. congruence. }
  destruct Ha as [[t ->]|(fuel & fps & t & ->)]; unfold step.
  - by apply (play_preserves P HP).
  - by apply (frameApply_preserves P HP).
Qed.

(** C4, as the code has it.  A promise made by [play] or [frameApply]
    holds the entry, not the action: its handler looks the label up when it
    runs.  So when [register(fns, true)] rebinds the label of a promise in
    flight to [g], the promise calls [g] with its entry when it fires. *)
Theorem fired_promise_calls_current_action
    (σ0 : state) (a : action) (p : nat) (pr : promise)
    (fns : gmap string callback) (g : callback) :
  (exists t, a = do_play t) \/
  (exists fuel fps t, a = do_frameApply fuel fps t) ->
  let σ1 := step a σ0 in
  let σ2 := after (register fns (Some true)) σ1 in
  heap σ0 !! p = None -> heap σ1 !! p = Some pr ->
  fns !! label (anim pr) = Some g ->
  settled pr = Pending /\
  is_Some (get (callbacks σ1) (label (anim pr))) /\
  callbacks σ2 !! label (anim pr) = Some g /\
  calls (after (fire p) σ2) = calls σ0 ++ [Call p (own g) (anim pr)].
Proof.
  intros Ha σ1 σ2 Hn Hl Hg.
  destruct (playback_makes_pending σ0 a Ha) as (H1 & H2 & H3).
  destruct (H3 p pr Hn Hl) as [Hs Hreg]. fold σ1 in H1, H2.
  assert (callbacks σ2 !! label (anim pr) = Some g) as Hg2.
  { subst σ2. rewrite register_lookup, Hg. simpl.
    by destruct (bool_decide _). }
  split; [exact Hs|]. split; [by rewrite H1|]. split; [exact Hg2|].
  unfold after. rewrite fire_eq. cbn [snd].
  change (heap σ2) with (heap σ1). rewrite Hl.
  destruct pr as [d e st]. cbn [settled anim] in *. subst st.
  cbv zeta. rewrite (get_own _ _ _ Hg2). cbn [callable calls set_calls].
  change (calls σ2) with (calls σ1). by rewrite H2.
Qed.

Lemma fired_promise_calls_current_action_witness :
  calls (after (fire 0)
          (after (register {[ "X"%string := fn_g ]} (Some true))
             (step (do_play None) engine_X)))
    = [Call 0 (own fn_g) anim_X].
Proof.
  destruct (fired_promise_calls_current_action engine_X (do_play None) 0
              (Promise (0 + toMs U_s 0) anim_X Pending)
              {[ "X"%string := fn_g ]} fn_g) as (_ & _ & _ & H).
  - left. by exists None.
  - reflexivity.
  - reflexivity.
  - reflexivity.
  - exact H.
Defined.

(** C4, as the spec states it, fails: a promise scheduled by [play] (or by
    [frameApply]) while the label was bound to [f] calls [g], and not [f],
    after [register({X: g}, true)]. *)
Lemma inflight_promise_calls_new_action :
  let σ1 := after (play None) engine_X in
  let σ2 := after (register {[ "X"%string := fn_g ]} (Some true)) σ1 in
  let τ1 := after (frameApply 100 (Some 2%float) None) engine_Y in
  let τ2 := after (register {[ "Y"%string := fn_g ]} (Some true)) τ1 in
  callbacks σ1 !! "X"%string = Some fn_f /\
  heap σ2 !! 0 = Some (Promise (0 + toMs U_s 0) anim_X Pending) /\
  calls (after (fire 0) σ2) = [Call 0 (own fn_g) anim_X] /\
  calls (after (fire 0) σ2) <> [Call 0 (own fn_f) anim_X] /\
  callbacks τ1 !! "Y"%string = Some fn_f /\
  settled <$> heap τ2 !! 0 = Some Pending /\
  calls (after (fire 0) τ2) = [Call 0 (own fn_g) anim_Y] /\
  calls (after (fire 0) τ2) <> [Call 0 (own fn_f) anim_Y].
Proof. repeat split; try discriminate. Qed.

(** ** The conversion [toMs] *)

Lemma SFmul_opp (x y : spec_float) :
  SF64mul (SFopp x) y = SFopp (SF64mul x y).
Proof.
  unfold SF64mul.
  destruct x as [sx|sx| |sx mx ex], y as [sy|sy| |sy my ey]; simpl;
    try reflexivity; try (by destruct sx, sy).
  unfold binary_round_aux.
  destruct (shr_fexp _ _ _ _ _) as [mrs' e'].
  destruct (shr_fexp _ _ _ _ _) as [mrs'' e''].
  destruct (shr_m mrs''); try reflexivity; try (by destruct sx, sy).
  destruct (Z.leb _ _); by destruct sx, sy.
Qed.

Lemma mul_opp (x y : float) : (- x * y = - (x * y))%float.
Proof.
  apply Prim2SF_inj. by rewrite mul_spec, !opp_spec, mul_spec, SFmul_opp.
Qed.

(** C9, as the code has it.  For each of the three units [toMs] multiplies
    in double arithmetic by the factor of the unit, the one belonging to the
    unit name the constructor accepted: [t] for ms, [t * 1000] for s and
    [t * 60 * 1000] (two products, each rounded) for m.  It maps 0 to 0,
    commutes with the change of sign, and is monotonic: it keeps the order
    [<=] of any two doubles. *)
Theorem toMs_multiplies_in_doubles (u : TimeUnit) :
  toMs u 0 = 0%float /\
  (forall t : float, toMs u (- t) = (- toMs u t)%float) /\
  (forall a b : float,
     (a <=? b)%float = true -> (toMs u a <=? toMs u b)%float = true) /\
  (forall t : float,
     toMs U_ms t = t /\ toMs U_s t = (t * 1000)%float /\
     toMs U_m t = (t * 60 * 1000)%float) /\
  toMs U_s 1 = 1000%float /\ toMs U_m 1 = 60000%float /\
  parse_timeUnit "ms" = Some U_ms /\
  parse_timeUnit "s" = Some U_s /\
  parse_timeUnit "m" = Some U_m /\
  (forall name, is_Some (parse_timeUnit name) ->
     name = "ms"%string \/ name = "s"%string \/ name = "m"%string).
Proof.
  split; [by destruct u|]. split.
  { intros t. destruct u; simpl; [done| |]; by rewrite !mul_opp. }
  split; [apply toMs_mono|].
  repeat split.
  intros name [v Hv]. unfold parse_timeUnit in Hv.
  destruct (String.eqb_spec name "ms"); [auto|].
  destruct (String.eqb_spec name "s"); [auto|].
  destruct (String.eqb_spec name "m"); [auto|]. discriminate.
Qed.

Lemma toMs_multiplies_in_doubles_witness :
  parse_timeUnit "s" = Some U_s /\ toMs U_s (- 2) = (- 2000)%float /\
  (toMs U_m d0_1 <=? toMs U_m d0_2)%float = true.
Proof.
  destruct (toMs_multiplies_in_doubles U_s) as (_ & H & _ & _ & _ & _ & _ & Hs & _).
  destruct (toMs_multiplies_in_doubles U_m) as (_ & _ & Hm & _).
  split; [exact Hs|]. split; [exact (H 2%float)|].
  apply Hm. reflexivity.
Defined.

(** C9, as the spec states it, fails: on doubles [toMs] is not additive
    ([0.1 + 0.2] seconds are 300.00000000000006 ms, [0.1] seconds plus [0.2]
    seconds are 300 ms), it is not strictly increasing, and for minutes it is
    not the product by 60000. *)
Lemma toMs_is_not_linear :
  toMs U_s (d0_1 + d0_2) = 0x1.2c00000000001p+8%float /\
  (toMs U_s d0_1 + toMs U_s d0_2)%float = 300%float /\
  (toMs U_s (d0_1 + d0_2) =? toMs U_s d0_1 + toMs U_s d0_2)%float = false /\
  (0x1.b410d93b25495p+0 <? 0x1.b410d93b25496p+0)%float = true /\
  (toMs U_s 0x1.b410d93b25495p+0 <? toMs U_s 0x1.b410d93b25496p+0)%float
    = false /\
  toMs U_m d8_7 = 522000%float /\
  (d8_7 * 60000)%float = 0x1.fdc3fffffffffp+18%float /\
  (toMs U_m d8_7 =? d8_7 * 60000)%float = false.
Proof. repeat split. Qed.

(** * Further properties of the engine *)

(** ** The constructor *)

(** X1. The constructor refuses a unit exactly when it is a non-empty string
    other than "ms", "s" and "m", with the error "Invalid 'timeUnit': ...".
    An absent or empty unit means milliseconds.  A single entry is the table
    of that entry alone, and a new engine has no action and no promise. *)
Theorem TimingManager_units (arg : timingArg) (u : option string) :
  let table := match arg with One e => [e] | Array l => l end in
  let fresh := fun unit => State table unit ∅ [] [] [] [] in
  (TimingManager arg u = inl (Error msg_timeUnit) <->
     exists name, u = Some name /\ name <> EmptyString /\
       name <> "ms"%string /\ name <> "s"%string /\ name <> "m"%string) /\
  (u = None \/ u = Some EmptyString \/ u = Some "ms"%string ->
     TimingManager arg u = inr (fresh U_ms)) /\
  (u = Some "s"%string -> TimingManager arg u = inr (fresh U_s)) /\
  (u = Some "m"%string -> TimingManager arg u = inr (fresh U_m)) /\
  (forall σ, TimingManager arg u = inr σ -> exists unit, σ = fresh unit) /\
  (forall e, TimingManager (One e) u = TimingManager (Array [e]) u).
Proof.
  intros table fresh. split; [|split; [|split; [|split; [|split]]]].
  - split.
    + intros H. destruct u as [name|]; [|discriminate].
      exists name. split; [done|].
      destruct name as [|c name]; [discriminate|].
      unfold TimingManager, parse_timeUnit in H.
      destruct (String.eqb_spec (String c name) "ms"); [discriminate|].
      destruct (String.eqb_spec (String c name) "s"); [discriminate|].
      destruct (String.eqb_spec (String c name) "m"); [discriminate|].
      done.
    + intros (name & -> & H0 & H1 & H2 & H3).
      destruct name as [|c name]; [done|].
      unfold TimingManager, parse_timeUnit.
      destruct (String.eqb_spec (String c name) "ms"); [done|].
      destruct (String.eqb_spec (String c name) "s"); [done|].
      destruct (String.eqb_spec (String c name) "m"); [done|].
      done.
  - by intros [->|[->| ->]].
  - by intros ->.
  - by intros ->.
  - intros σ H. unfold TimingManager in H.
    destruct (parse_timeUnit _) as [unit|]; [|discriminate].
    exists unit. by injection H as <-.
  - done.
Qed.

Lemma TimingManager_units_witness :
  TimingManager (One anim_X) (Some "h"%string) = inl (Error msg_timeUnit) /\
  TimingManager (One anim_X) None = inr (State [anim_X] U_ms ∅ [] [] [] []).
Proof.
  destruct (TimingManager_units (One anim_X) (Some "h"%string)) as (H1 & _).
  destruct (TimingManager_units (One anim_X) None) as (_ & H2 & _).
  split.
  - apply H1. exists "h"%string. repeat split; discriminate.
  - apply H2. by left.
Defined.

(** ** The registry *)

(** X2. [register] is a union of two maps: when [overwrite] is true the
    argument wins over the registry; otherwise the registry wins and, of the
    argument, only the labels that [Object.prototype] does not have are
    added.  It never unbinds a label, and binds no label that is not in its
    argument.  (A label [__proto__] written with [overwrite] would replace
    the prototype of [callbacks]; the argument is taken to have none.) *)
Theorem register_is_union (fns : gmap string callback) (ow : option bool)
    (σ : state) :
  (truthy ow = true -> fns !! "__proto__"%string = None) ->
  let σ' := after (register fns ow) σ in
  callbacks σ' =
    (if truthy ow then fns ∪ callbacks σ
     else callbacks σ ∪
          filter (fun kv => kv.1 ∉ Object_prototype) fns) /\
  σ' = set_callbacks (callbacks σ') σ /\
  dom (callbacks σ) ⊆ dom (callbacks σ') /\
  dom (callbacks σ') ⊆ dom (callbacks σ) ∪ dom fns /\
  (truthy ow = false -> callbacks σ ⊆ callbacks σ') /\
  (truthy ow = true -> fns ⊆ callbacks σ').
Proof.
  intros _ σ'.
  assert (callbacks σ' =
    (if truthy ow then fns ∪ callbacks σ
     else callbacks σ ∪
          filter (fun kv => kv.1 ∉ Object_prototype) fns)) as Hc.
  { subst σ'. apply map_eq. intros l. rewrite register_lookup.
    destruct (truthy ow).
    - rewrite lookup_union.
      destruct (bool_decide (is_Some (get (callbacks σ) l)));
        by destruct (fns !! l), (callbacks σ !! l).
    - rewrite lookup_union.
      destruct (fns !! l) as [fn|] eqn:Hf.
      + destruct (callbacks σ !! l) as [c|] eqn:Hl.
        * rewrite bool_decide_eq_true_2 by (rewrite get_is_Some, Hl; eauto).
          by destruct (filter _ fns !! l).
        * case_bool_decide as Hb.
          -- rewrite get_is_Some, Hl in Hb.
             destruct Hb as [[? ?]|Hp]; [done|].
             rewrite map_lookup_filter_None_2; [done|].
             right. intros x Hx. simpl. tauto.
          -- rewrite get_is_Some, Hl in Hb.
             erewrite map_lookup_filter_Some_2; [done|exact Hf|].
             simpl. tauto.
      + rewrite map_lookup_filter_None_2 by (by left).
        by destruct (callbacks σ !! l). }
  split; [exact Hc|]. split; [done|]. rewrite Hc.
  split; [|split; [|split]].
  - destruct (truthy ow); rewrite dom_union_L;
      [apply union_subseteq_r | apply union_subseteq_l].
  - destruct (truthy ow); rewrite dom_union_L.
    + by rewrite (comm_L (∪) (dom fns)).
    + apply union_mono_l, dom_filter_subseteq.
  - intros ->. apply map_union_subseteq_l.
  - intros ->. apply map_union_subseteq_l.
Qed.

Lemma register_is_union_witness :
  callbacks (after (register {[ "toString"%string := fn_g; "Z"%string := fn_g ]}
                             None) engine_X)
    = callbacks engine_X ∪ {[ "Z"%string := fn_g ]}.
Proof.
  destruct (register_is_union
              {[ "toString"%string := fn_g; "Z"%string := fn_g ]} None engine_X)
    as (H & _).
  - discriminate.
  - rewrite H. vm_compute. reflexivity.
Defined.

(** X3. Registering the same actions twice, with the same [overwrite], is
    registering them once. *)
Theorem register_twice (fns : gmap string callback) (ow : option bool)
    (σ : state) :
  after (register fns ow) (after (register fns ow) σ)
    = after (register fns ow) σ.
Proof.
  assert (callbacks (after (register fns ow) (after (register fns ow) σ))
          = callbacks (after (register fns ow) σ)) as H.
  { apply map_eq. intros l. rewrite register_lookup.
    destruct (fns !! l) as [fn|] eqn:Hf; [|done].
    pose proof (register_lookup fns ow σ l) as H1. rewrite Hf in H1.
    set (c1 := callbacks (after (register fns ow) σ)) in *.
    assert (is_Some (c1 !! l) \/ l ∈ Object_prototype ->
            bool_decide (is_Some (get c1 l)) = true) as Hb.
    { intros ?. apply bool_decide_eq_true_2. by apply get_is_Some. }
    destruct (bool_decide (is_Some (get (callbacks σ) l))) eqn:H0.
    - apply bool_decide_eq_true_1, get_is_Some in H0.
      destruct (truthy ow).
      + rewrite Hb by (rewrite H1; eauto). by rewrite H1.
      + rewrite Hb; [done|]. rewrite H1. tauto.
    - rewrite Hb by (rewrite H1; eauto). rewrite H1.
      by destruct (truthy ow). }
  unfold after in *. rewrite !register_eq in *. simpl in *.
  unfold set_callbacks. simpl. by rewrite H.
Qed.



(** ** Playback *)

(** X5. On an engine with actions [play(t)] returns and adds, in table
    order, one pending promise for each entry for which [callbacks[label]] is
    truthy (an action, or a member that [callbacks] inherits from
    [Object.prototype]), with delay [t + toMs(anim.start)] ([t] is 0 when
    absent or falsy), and one reference to it at the end of [promises]; for
    each other entry it writes the warning "Ignoring playback of animation:
    <label>".  The promises that were outstanding stay, and nothing is
    called. *)
Theorem play_schedules_matched_entries (t : option float) (σ : state) :
  callbacks σ <> ∅ ->
  let σ' := after (play t) σ in
  let matched := List.filter (registered σ) (timingInfo σ) in
  let skipped := List.filter (fun a => negb (registered σ a)) (timingInfo σ) in
  fst (play t σ) = Normal tt /\
  (forall a, registered σ a = true <->
     is_Some (callbacks σ !! label a) \/ label a ∈ Object_prototype) /\
  heap σ' = heap σ ++
    map (fun a => Promise (or_default t 0 + toMs (timeUnit σ) (start a)) a
                    Pending) matched /\
  promises σ' = promises σ ++ seq (length (heap σ)) (length matched) /\
  console σ' = console σ ++ map (fun a => msg_ignoring (label a)) skipped /\
  callbacks σ' = callbacks σ /\ calls σ' = calls σ /\
  timingInfo σ' = timingInfo σ /\ timeUnit σ' = timeUnit σ.
Proof.
  intros H σ'. subst σ'. unfold after. rewrite play_eq by done.
  split; [done|]. split; [|repeat split].
  intros a. unfold registered. by rewrite bool_decide_eq_true, get_is_Some.
Qed.

Lemma play_schedules_matched_entries_witness :
  let σ := after (register {[ "X"%string := fn_f ]} None)
             (engine (Array [Entry "constructor" 1 1; Entry "Z" 0 1; anim_X])
                     (Some "s"%string)) in
  heap (after (play (Some 5%float)) σ)
    = [Promise 1005 (Entry "constructor" 1 1) Pending;
       Promise 5 anim_X Pending] /\
  promises (after (play (Some 5%float)) σ) = [0; 1] /\
  console (after (play (Some 5%float)) σ)
    = ["Ignoring playback of animation: Z"%string].
Proof.
  intros σ.
  destruct (play_schedules_matched_entries (Some 5%float) σ)
    as (_ & _ & H1 & H2 & H3 & _).
  - vm_compute. discriminate.
  - split; [|split]; [rewrite H1 | rewrite H2 | rewrite H3];
      vm_compute; reflexivity.
Defined.

Lemma only_appends_refl σ : only_appends σ σ.
Proof. by repeat split. Qed.

Lemma only_appends_schedule σ d l τ :
  only_appends σ τ -> only_appends σ (schedule d l τ).
Proof.
  intros (H1 & H2 & H3 & H4 & H5 & H6 & H7 & H8).
  unfold only_appends, schedule. simpl.
  split; [by apply prefix_app_r|]. split; [by apply prefix_app_r|].
  split; [by apply prefix_app_r|].
  split; [rewrite !length_app, length_seq, length_map; lia|done].
Qed.

Lemma play_only_appends (t : option float) σ :
  only_appends σ (after (play t) σ).
Proof.
  apply (play_preserves (only_appends σ)); [|apply only_appends_refl].
  intros d l τ. apply only_appends_schedule.
Qed.

Lemma frameApply_only_appends (fuel : nat) (fps t : option float) σ :
  only_appends σ (after (frameApply fuel fps t) σ).
Proof.
  apply (frameApply_preserves (only_appends σ)); [|apply only_appends_refl].
  intros d l τ. apply only_appends_schedule.
Qed.

(** X6. Playback only adds: [play] and [frameApply] leave the promises,
    references and warnings that were there, add as many references as
    promises, and change neither the registry, the table, the unit nor the
    record of calls; no action runs during the call. *)
Theorem playback_only_appends (fuel : nat) (fps t : option float) (σ : state) :
  only_appends σ (after (play t) σ) /\
  only_appends σ (after (frameApply fuel fps t) σ).
Proof.
  split; [apply play_only_appends | apply frameApply_only_appends].
Qed.

(** X7. On an engine with actions [frameApply] throws "Frames per second
    must be > 0", with the state unchanged, exactly when [fps] is a negative
    number; it throws nothing else.  (For [fps] positive, zero, [NaN] or
    absent it goes on to its loops.) *)
Theorem frameApply_throws_iff_negative
    (fuel : nat) (fps t : option float) (σ : state) :
  callbacks σ <> ∅ ->
  (fst (frameApply fuel fps t σ) = Throw (Error msg_fps) <->
     exists v, fps = Some v /\ (v <? 0)%float = true) /\
  (forall e, fst (frameApply fuel fps t σ) = Throw e ->
     e = Error msg_fps /\ snd (frameApply fuel fps t σ) = σ).
Proof.
  intros Hne.
  assert ((or_default fps 10 <=? 0)%float = true <->
          exists v, fps = Some v /\ (v <? 0)%float = true) as Hneg.
  { split.
    - intros H. destruct fps as [v|]; [|discriminate].
      exists v. split; [done|]. simpl in H. unfold falsy in H.
      destruct (v =? 0)%float eqn:Ez; [discriminate|].
      destruct (is_nan v) eqn:En; [discriminate|]. simpl in H.
      rewrite leb_ltb_eqb, Ez, orb_false_r in H. done.
    - intros (v & -> & Hv). simpl. unfold falsy.
      rewrite (ltb_not_eqb _ _ Hv), (proj1 (ltb_not_nan _ _ Hv)). simpl.
      by rewrite leb_ltb_eqb, Hv. }
  destruct (frameApply_outcome fuel fps t σ)
    as [[He _]|[(_ & Hf & Heq)|(_ & Hf & Hr)]]; [done| |].
  - rewrite Heq. simpl. split; [by rewrite <- Hneg|].
    intros e [= <-]. done.
  - split.
    + rewrite <- Hneg, Hf. split; [|done].
      intros H. destruct Hr as [Hr|Hr]; rewrite Hr in H; discriminate.
    + intros e H. destruct Hr as [Hr|Hr]; rewrite Hr in H; discriminate.
Qed.

Lemma frameApply_throws_iff_negative_witness :
  frameApply 100 (Some (-3)%float) None engine_Y
    = (Throw (Error msg_fps), engine_Y).
Proof.
  destruct (frameApply_throws_iff_negative 100 (Some (-3)%float) None engine_Y)
    as (H1 & H2).
  - vm_compute. discriminate.
  - assert (fst (frameApply 100 (Some (-3)%float) None engine_Y)
            = Throw (Error msg_fps)) as H.
    { apply H1. exists (-3)%float. split; reflexivity. }
    rewrite (surjective_pairing (frameApply _ _ _ _)).
    by rewrite H, (proj2 (H2 _ H)).
Defined.

(** ** The frames of [frameApply] *)

Lemma lt_last_not_nan (i : float) (times : list float) :
  lt_last i times = true -> is_nan i = false.
Proof.
  unfold lt_last. destruct (last times) as [l|]; [|done].
  intros H. by apply ltb_not_nan in H as [? _].
Qed.

(** What the second loop keeps: every promise made since [σ0] is pending,
    for an entry of the table for which [callbacks[label]] is truthy, which
    passes the test of [frameTiming] at the delay of the promise, and the
    delay is the start of the loop with the increment added a whole number of
    times. *)
Lemma frames_loop_frames (σ0 : state) (increment t' : float)
    (times : list float) :
  let good σ :=
    timeUnit σ = timeUnit σ0 /\ timingInfo σ = timingInfo σ0 /\
    callbacks σ = callbacks σ0 /\
    forall p pr, heap σ0 !! p = None -> heap σ !! p = Some pr ->
      settled pr = Pending /\
      is_Some (get (callbacks σ0) (label (anim pr))) /\
      In (anim pr) (timingInfo σ0) /\
      active (timeUnit σ0) (delay pr) (anim pr) = true /\
      lt_last (delay pr) times = true /\
      exists k : nat,
        delay pr = Nat.iter k (fun i => i + increment)%float t' in
  forall (fuel : nat) (i : float) (m : nat) σ,
    i = Nat.iter m (fun i => i + increment)%float t' ->
    good σ -> good (snd (frames_loop fuel increment times i σ)).
Proof.
  intros good. induction fuel as [|fuel IH]; intros i m σ Hi Hg; [done|].
  simpl. destruct (lt_last i times) eqn:Hlast; [|done].
  unfold mbind, M_bind, bind. rewrite frameTiming_eq.
  unfold singleTiming. rewrite (each_playFrame (fun _ => i)).
  apply (IH _ (S m)).
  { simpl. by rewrite <- Hi. }
  destruct Hg as (Hu & Hi' & Hc & Hp).
  split; [done|]. split; [done|]. split; [done|].
  intros p pr Hn Hl. unfold schedule in Hl. cbn [heap] in Hl.
  apply lookup_app_Some in Hl as [Hl|[_ Hl]]; [eauto|].
  apply list_elem_of_lookup_2, list_elem_of_In, in_map_iff in Hl.
  destruct Hl as (e & <- & He). apply filter_In in He as [He Hr].
  apply filter_In in He as [Hin Ha]. simpl.
  unfold registered in Hr. apply bool_decide_eq_true_1 in Hr.
  rewrite active_or_default in Ha by (by eapply lt_last_not_nan).
  rewrite Hu, Hi' in *. rewrite Hc in Hr.
  split; [done|]. split; [done|]. split; [done|]. split; [done|].
  split; [done|]. by exists m.
Qed.

(** A promise made by [frameApply]: see [frames_loop_frames]. *)
Lemma frameApply_new_promise (fuel : nat) (fps t : option float) (σ : state)
    (p : nat) (pr : promise) :
  heap σ !! p = None ->
  heap (after (frameApply fuel fps t) σ) !! p = Some pr ->
  let u := timeUnit σ in
  settled pr = Pending /\
  is_Some (get (callbacks σ) (label (anim pr))) /\
  In (anim pr) (timingInfo σ) /\
  (toMs u (start (anim pr)) <=? delay pr)%float = true /\
  (delay pr <? toMs u (start (anim pr) + durn (anim pr)))%float = true /\
  exists k : nat,
    delay pr = Nat.iter k (fun i => i + 1000 / or_default fps 10)%float
                 (toMs u (or_default t 0)).
Proof.
  intros Hn Hl u.
  assert (callbacks σ <> ∅) as Hne.
  { intros He. unfold after, frameApply, mbind, M_bind, bind in Hl.
    rewrite ensureNonEmpty_empty in Hl by done. simpl in Hl. congruence. }
  unfold after in Hl. rewrite frameApply_eq in Hl by done. cbv zeta in Hl.
  destruct (_ <=? 0)%float; [simpl in Hl; congruence|].
  destruct (times_loop _ _ _ _ _ _) as [times|]; [|simpl in Hl; congruence].
  unfold mbind, M_bind, bind in Hl.
  pose proof (frames_loop_frames σ (1000 / or_default fps 10)
    (toMs (timeUnit σ) (or_default t 0)) times fuel
    (toMs (timeUnit σ) (or_default t 0)) 0 σ) as H.
  cbv zeta in H.
  destruct H as (_ & _ & _ & H).
  { reflexivity. }
  { split; [done|]. split; [done|]. split; [done|]. intros; congruence. }
  destruct (frames_loop _ _ _ _ σ) as [[| |] σ']; simpl in Hl, H.
  all: destruct (H p pr Hn Hl) as (H1 & H2 & H3 & H4 & _ & H5).
  all: unfold active in H4; apply andb_true_iff in H4 as [H4 H6]; done.
Qed.

(** X9. Every promise that [frameApply(fps, t)] makes is pending and is for
    an entry of the table for which [callbacks[label]] is truthy; its delay
    is [toMs(t)] with the increment [1000 / fps] added a whole number of
    times (as [i += increment] does, each sum rounded), and the entry passes
    the test of [frameTiming] at that delay:
    [toMs(start) <= delay < toMs(start + durn)].  So the table is sampled at
    instants that include the delay [t]. *)
Theorem frameApply_frames (fuel : nat) (fps t : option float) (σ : state)
    (p : nat) (pr : promise) :
  heap σ !! p = None ->
  heap (after (frameApply fuel fps t) σ) !! p = Some pr ->
  let u := timeUnit σ in
  settled pr = Pending /\
  is_Some (get (callbacks σ) (label (anim pr))) /\
  In (anim pr) (timingInfo σ) /\
  (toMs u (start (anim pr)) <=? delay pr)%float = true /\
  (delay pr <? toMs u (start (anim pr) + durn (anim pr)))%float = true /\
  exists k : nat,
    delay pr = Nat.iter k (fun i => i + 1000 / or_default fps 10)%float
                 (toMs u (or_default t 0)).
Proof. apply frameApply_new_promise. Qed.

Lemma frameApply_frames_witness :
  heap (after (frameApply 100 (Some 9%float) None) engine_Y) !! 8
    = Some (Promise 0x1.bc71c71c71c71p+9 anim_Y Pending) /\
  (toMs U_s (start anim_Y) <=? 0x1.bc71c71c71c71p+9)%float = true /\
  (0x1.bc71c71c71c71p+9 <? toMs U_s (start anim_Y + durn anim_Y))%float = true.
Proof.
  assert (heap (after (frameApply 100 (Some 9%float) None) engine_Y) !! 8
          = Some (Promise 0x1.bc71c71c71c71p+9 anim_Y Pending)) as H
    by (vm_compute; reflexivity).
  split; [exact H|].
  destruct (frameApply_frames 100 (Some 9%float) None engine_Y 8 _ eq_refl H)
    as (_ & _ & _ & H1 & H2 & _).
  split; [exact H1 | exact H2].
Defined.

Lemma mul_zero_not_lt_zero (x : float) : (0 * x <? 0)%float = false.
Proof.
  rewrite FloatAxioms.ltb_spec, mul_spec.
  change (Prim2SF 0) with (S754_zero false).
  by destruct (Prim2SF x) as [[]|[]| |[] m e].
Qed.

(** ** The order of doubles *)

Lemma SFcompare_antisym (a b : spec_float) :
  SFcompare b a = CompOpp <$> SFcompare a b.
Proof.
  destruct a as [[]|[]| |[] ma ea], b as [[]|[]| |[] mb eb]; simpl;
    try reflexivity.
  all: rewrite (Z.compare_antisym ea eb).
  all: change (Pos.compare_cont Eq mb ma) with (Pos.compare mb ma).
  all: change (Pos.compare_cont Eq ma mb) with (Pos.compare ma mb).
  all: rewrite (Pos.compare_antisym ma mb).
  all: by destruct (Z.compare ea eb), (Pos.compare ma mb).
Qed.

Lemma SFleb_trans (a b c : spec_float) :
  SFleb a b = true -> SFleb b c = true -> SFleb a c = true.
Proof.
  unfold SFleb.
  destruct a as [[]|[]| |[] ma ea], b as [[]|[]| |[] mb eb],
           c as [[]|[]| |[] mc ec]; simpl; try done.
  all: change (Pos.compare_cont Eq ma mb) with (Pos.compare ma mb).
  all: change (Pos.compare_cont Eq mb mc) with (Pos.compare mb mc).
  all: change (Pos.compare_cont Eq ma mc) with (Pos.compare ma mc).
  all: destruct (Z.compare_spec ea eb), (Z.compare_spec eb ec),
         (Z.compare_spec ea ec); try done; try lia.
  all: destruct (Pos.compare_spec ma mb), (Pos.compare_spec mb mc),
         (Pos.compare_spec ma mc); try done; try lia.
Qed.

Lemma leb_trans (a b c : float) :
  (a <=? b)%float = true -> (b <=? c)%float = true -> (a <=? c)%float = true.
Proof. rewrite !FloatAxioms.leb_spec. apply SFleb_trans. Qed.

Lemma leb_not_ltb (a b : float) :
  (a <=? b)%float = true -> (b <? a)%float = false.
Proof.
  rewrite FloatAxioms.leb_spec, FloatAxioms.ltb_spec. unfold SFleb, SFltb.
  rewrite (SFcompare_antisym (Prim2SF a) (Prim2SF b)).
  by destruct (SFcompare _ _) as [[]|].
Qed.

Lemma not_ltb_eqb (a b : float) :
  is_nan a = false -> is_nan b = false ->
  (a <? b)%float = false -> (b <? a)%float = false ->
  (a =? b)%float = true.
Proof.
  unfold is_nan. rewrite !negb_false_iff.
  rewrite !FloatAxioms.ltb_spec, !FloatAxioms.eqb_spec.
  unfold SFltb, SFeqb.
  rewrite (SFcompare_antisym (Prim2SF a) (Prim2SF b)).
  destruct (Prim2SF a) as [[]|[]| |[] ma ea], (Prim2SF b) as [[]|[]| |[] mb eb];
    simpl; try done.
  all: by destruct (Z.compare ea eb), (Pos.compare_cont Eq ma mb).
Qed.

Lemma eqb_sym (a b : float) : (a =? b)%float = (b =? a)%float.
Proof.
  rewrite !FloatAxioms.eqb_spec. unfold SFeqb.
  rewrite (SFcompare_antisym (Prim2SF a) (Prim2SF b)).
  by destruct (SFcompare _ _) as [[]|].
Qed.

(** [Math.max] is an upper bound of its arguments, unless it is [NaN]. *)
Lemma Math_max_upper (a b : float) :
  is_nan (Math_max a b) = false ->
  is_nan a = false /\ is_nan b = false /\
  (a <=? Math_max a b)%float = true /\ (b <=? Math_max a b)%float = true.
Proof.
  unfold Math_max.
  destruct (is_nan a) eqn:Ha; [done|]. destruct (is_nan b) eqn:Hb; [done|].
  simpl. intros _. split; [done|]. split; [done|].
  destruct (a <? b)%float eqn:Hab.
  { split; [by rewrite leb_ltb_eqb, Hab | by apply leb_refl]. }
  destruct (b <? a)%float eqn:Hba.
  { split; [by apply leb_refl | by rewrite leb_ltb_eqb, Hba]. }
  pose proof (not_ltb_eqb a b Ha Hb Hab Hba) as He.
  assert ((a <=? b)%float = true) as Hle1
    by (by rewrite leb_ltb_eqb, He, orb_true_r).
  assert ((b <=? a)%float = true) as Hle2
    by (by rewrite leb_ltb_eqb, (eqb_sym b a), He, orb_true_r).
  destruct (classify a); split; try done; by apply leb_refl.
Qed.

Lemma total_durn_from (u : TimeUnit) (info : list entry) :
  forall acc : float,
    let total :=
      fold_left (fun d i => Math_max d (toMs u (start i + durn i))) info acc in
    is_nan total = false ->
    (acc <=? total)%float = true /\
    forall e, In e info ->
      (toMs u (start e + durn e) <=? total)%float = true.
Proof.
  induction info as [|a info IH]; intros acc total Hn; simpl in *.
  - split; [by apply leb_refl | tauto].
  - destruct (IH _ Hn) as [H1 H2]. fold total in H1, H2.
    assert (is_nan (Math_max acc (toMs u (start a + durn a))) = false) as Hm.
    { destruct (is_nan (Math_max acc (toMs u (start a + durn a)))) eqn:E;
        [|done].
      rewrite leb_ltb_eqb in H1. apply orb_true_iff in H1 as [H1|H1].
      - apply ltb_not_nan in H1 as [H1 _]. congruence.
      - apply eqb_not_nan in H1 as [H1 _]. congruence. }
    destruct (Math_max_upper _ _ Hm) as (_ & _ & H3 & H4).
    split; [by eapply leb_trans|].
    intros e [<-|He]; [by eapply leb_trans | by apply H2].
Qed.

Lemma filter_none {A} (f : A -> bool) (l : list A) :
  (forall a, In a l -> f a = false) -> List.filter f l = [].
Proof.
  induction l as [|a l IH]; intros H; [done|].
  cbn [List.filter]. rewrite (H a) by (by left).
  apply IH. intros b Hb. apply H. by right.
Qed.

(** X12. The duration that [frameApply] computes with [Math.max], when it
    is a number, is not negative and is an upper bound of the ends
    [toMs(start + durn)] of all entries; and [frameTiming] returns nothing at
    an instant at or after it. *)
Theorem nothing_is_active_after_the_end (σ : state) (t : float) :
  let total := total_durn (timeUnit σ) (timingInfo σ) in
  (is_nan total = false ->
   (0 <=? total)%float = true /\
   forall e, In e (timingInfo σ) ->
     (toMs (timeUnit σ) (start e + durn e) <=? total)%float = true) /\
  ((total <=? t)%float = true -> frameTiming (Some t) σ = (Normal [], σ)).
Proof.
  intros total. split.
  { intros Hn. by apply (total_durn_from (timeUnit σ) (timingInfo σ) 0). }
  intros Ht.
  assert (is_nan total = false /\ is_nan t = false) as [Hn Hnt].
  { rewrite leb_ltb_eqb in Ht. apply orb_true_iff in Ht as [Ht|Ht].
    - by apply ltb_not_nan in Ht.
    - by apply eqb_not_nan in Ht. }
  destruct (total_durn_from (timeUnit σ) (timingInfo σ) 0 Hn) as [_ Hub].
  fold total in Hub.
  rewrite frameTiming_eq. do 2 f_equal.
  assert (forall a, In a (timingInfo σ) ->
            active (timeUnit σ) (or_default (Some t) 0) a = false) as Hall.
  { intros a Ha. rewrite active_or_default by done. unfold active.
    rewrite (leb_not_ltb (toMs (timeUnit σ) (start a + durn a)) t).
    - apply andb_false_r.
    - eapply leb_trans; [by apply Hub | exact Ht]. }
  by apply filter_none.
Qed.

Lemma nothing_is_active_after_the_end_witness :
  frameTiming (Some 1000%float) engine_X = (Normal [], engine_X) /\
  (toMs U_s (start anim_X + durn anim_X) <=? 1000)%float = true.
Proof.
  destruct (nothing_is_active_after_the_end engine_X 1000) as (H1 & H2).
  split.
  - apply H2. reflexivity.
  - destruct H1 as [_ H1]; [reflexivity|]. apply (H1 anim_X). by left.
Defined.

(** ** Sessions *)

Lemma step_fixed (a : action) σ :
  timingInfo (step a σ) = timingInfo σ /\
  timeUnit (step a σ) = timeUnit σ /\
  (is_register a = false -> callbacks (step a σ) = callbacks σ) /\
  (is_fire a = false -> calls (step a σ) = calls σ).
Proof.
  destruct a as [fns ow|t|fuel fps t|t| |p]; unfold step.
  - done.
  - by destruct (play_only_appends t σ) as (_ & _ & _ & _ & ? & ? & ? & ?).
  - by destruct (frameApply_only_appends fuel fps t σ)
      as (_ & _ & _ & _ & ? & ? & ? & ?).
  - by rewrite frameTiming_pure.
  - by rewrite cancel_eq.
  - rewrite fire_eq. simpl.
    destruct (heap σ !! p) as [[d a []]|]; try done.
    destruct (get (callbacks σ) (label a)) as [v|]; [|done].
    by destruct (callable v).
Qed.

(** X13. Nothing changes the timing table or the unit of an engine: they are
    as the constructor left them after any method calls and timers.  The
    registry changes only in [register], and actions are called only when a
    timer fires, never during a method call. *)
Theorem table_and_unit_are_fixed (acts : list action) (σ : state) :
  timingInfo (run acts σ) = timingInfo σ /\
  timeUnit (run acts σ) = timeUnit σ /\
  (forallb (fun a => negb (is_register a)) acts = true ->
     callbacks (run acts σ) = callbacks σ) /\
  (forallb (fun a => negb (is_fire a)) acts = true ->
     calls (run acts σ) = calls σ).
Proof.
  revert σ. induction acts as [|a acts IH]; intros σ; [done|].
  simpl. destruct (IH (step a σ)) as (H1 & H2 & H3 & H4).
  destruct (step_fixed a σ) as (S1 & S2 & S3 & S4).
  split; [congruence|]. split; [congruence|]. split.
  - intros [Ha Hacts]%andb_true_iff. apply negb_true_iff in Ha.
    rewrite H3 by done. by apply S3.
  - intros [Ha Hacts]%andb_true_iff. apply negb_true_iff in Ha.
    rewrite H4 by done. by apply S4.
Qed.

Lemma table_and_unit_are_fixed_witness :
  calls (run [do_play None; do_cancel; do_frameApply 100 None None] engine_X)
    = calls engine_X.
Proof.
  destruct (table_and_unit_are_fixed
              [do_play None; do_cancel; do_frameApply 100 None None] engine_X)
    as (_ & _ & _ & H).
  by apply H.
Defined.

(** X14. In every state that a program can reach, [promises] refers only
    to promises that exist, every promise that is still pending is referred
    to from [promises] (so that [cancel] reaches it), and only promises that
    fired have called an action. *)
Theorem engine_tracks_its_promises (σ : state) :
  reachable σ ->
  (forall p, p ∈ promises σ -> is_Some (heap σ !! p)) /\
  (forall p pr, heap σ !! p = Some pr -> settled pr = Pending ->
     p ∈ promises σ) /\
  (forall c, c ∈ calls σ ->
     exists pr, heap σ !! by_promise c = Some pr /\ settled pr = Fired).
Proof.
  intros Hr. destruct (tracked_reachable σ Hr) as (Ha & Hb & Hc).
  split; [|split; [exact Hb | exact Hc]].
  intros p Hp. by apply lookup_lt_is_Some_2, Ha.
Qed.

Lemma engine_tracks_its_promises_witness :
  0 ∈ promises (after (play None) engine_X).
Proof.
  assert (reachable (after (play None) engine_X)) as Hr.
  { exists (Array [anim_X]), (Some "s"%string),
      (engine (Array [anim_X]) (Some "s"%string)),
      [do_register {[ "X"%string := fn_f ]} None; do_play None].
    split; reflexivity. }
  apply (proj1 (proj2 (engine_tracks_its_promises _ Hr)) 0
           (Promise (0 + toMs U_s 0) anim_X Pending)); reflexivity.
Defined.

(** ** Calls *)

(** What a step adds to the calls of promise [h]: nothing, unless the step
    is the timer of [h] going off while [h] is pending and
    [callbacks[label]] is a function. *)
Lemma calls_by_step (a : action) σ (h : nat) :
  tracked σ ->
  calls_by h (step a σ) = calls_by h σ \/
  exists d e v,
    a = do_fire h /\ heap σ !! h = Some (Promise d e Pending) /\
    get (callbacks σ) (label e) = Some v /\ callable v = true /\
    calls_by h σ = [] /\ calls_by h (step a σ) = [Call h v e].
Proof.
  intros Ht. destruct (is_fire a) eqn:Ef.
  2:{ left. unfold calls_by. by rewrite (proj2 (proj2 (proj2 (step_fixed a σ)))). }
  destruct a as [| | | | |q]; try discriminate. unfold step.
  rewrite fire_eq. simpl.
  destruct (heap σ !! q) as [[d e st]|] eqn:E; [|by left].
  destruct st; try (by left).
  destruct (get (callbacks σ) (label e)) as [v|] eqn:Ec; [|by left].
  destruct (callable v) eqn:Ev; [|by left].
  unfold calls_by. simpl. rewrite List.filter_app. simpl.
  destruct (Nat.eqb_spec q h) as [->|Hne].
  - right. exists d, e, v.
    pose proof (pending_no_calls σ h _ Ht E eq_refl) as Hno.
    unfold calls_by in Hno. by rewrite Hno.
  - left. by rewrite app_nil_r.
Qed.

(** X15. In every state that a program can reach, each promise has called
    an action at most once: no scheduled call runs twice, whatever the order
    of method calls and timers. *)
Theorem promise_calls_at_most_once (σ : state) (h : nat) :
  reachable σ -> length (calls_by h σ) <= 1.
Proof.
  intros (ti & tu & σ0 & acts & Hnew & ->).
  assert (tracked σ0) as Ht.
  { apply tracked_reachable. exists ti, tu, σ0, []. by split. }
  assert (length (calls_by h σ0) <= 1) as H0.
  { unfold TimingManager in Hnew. destruct (parse_timeUnit _); [|done].
    injection Hnew as <-. simpl. lia. }
  clear Hnew. revert σ0 Ht H0.
  induction acts as [|a acts IH]; intros σ0 Ht H0; [done|].
  simpl. apply IH; [by apply tracked_step|].
  destruct (calls_by_step a σ0 h Ht)
    as [->|(d & e & f & _ & _ & _ & _ & _ & ->)]; [done | simpl; lia].
Qed.

Lemma promise_calls_at_most_once_witness :
  length (calls_by 0 (run [do_play None; do_fire 0; do_fire 0] engine_X)) <= 1.
Proof.
  apply promise_calls_at_most_once.
  exists (Array [anim_X]), (Some "s"%string),
    (engine (Array [anim_X]) (Some "s"%string)),
    [do_register {[ "X"%string := fn_f ]} None;
     do_play None; do_fire 0; do_fire 0].
  split; reflexivity.
Defined.






(** ** The sample instants of [frameApply] *)

Lemma times_loop_instants (increment durn t : float) :
  forall (fuel : nat) (i : float) (times r : list float) (m : nat),
    i = Nat.iter m (fun i => i + 1)%float 0%float ->
    times_loop fuel increment durn t i times = Some r ->
    exists new, r = times ++ new /\ m + length new < m + fuel /\
      (forall k x, new !! k = Some x ->
         let c := Nat.iter (m + k) (fun i => i + 1)%float 0%float in
         x = (t + c * increment)%float /\
         (c * increment <? durn)%float = true) /\
      (Nat.iter (m + length new) (fun i => i + 1)%float 0 * increment
       <? durn)%float = false.
Proof.
  induction fuel as [|fuel IH]; intros i times r m Hi Hr; [done|].
  simpl in Hr. destruct (i * increment <? durn)%float eqn:E.
  - apply (IH _ _ _ (S m)) in Hr as (new & -> & Hlen & Hk & Hend).
    2:{ simpl. by rewrite <- Hi. }
    exists ((t + i * increment)%float :: new).
    split; [by rewrite <- app_assoc|]. split; [simpl; lia|]. split.
    + intros [|k] x Hx.
      * injection Hx as <-. rewrite Nat.add_0_r, <- Hi. by split.
      * replace (m + S k) with (S m + k) by lia. by apply Hk.
    + simpl length. by replace (m + S (length new)) with (S m + length new) by lia.
  - injection Hr as <-. exists []. split; [by rewrite app_nil_r|].
    split; [simpl; lia|]. split.
    + intros k x Hx. by rewrite lookup_nil in Hx.
    + simpl. by rewrite Nat.add_0_r, <- Hi.
Qed.

(** X8. When the first loop of [frameApply] ends, the instants it yields
    are [t + i * increment] for the values [0, 1, 2, ...] of the counter [i]
    (each advanced by [i++]), as long as [i * increment < durn], and no more:
    the loop stops at the first value of the counter that fails this test.
    The sums and products are those of doubles. *)
Theorem sample_instants (fuel : nat) (increment durn t : float)
    (times : list float) :
  times_loop fuel increment durn t 0 [] = Some times ->
  let counter k := Nat.iter k (fun i => i + 1)%float 0%float in
  length times < fuel /\
  (forall k x, times !! k = Some x ->
     x = (t + counter k * increment)%float /\
     (counter k * increment <? durn)%float = true) /\
  (counter (length times) * increment <? durn)%float = false.
Proof.
  intros H counter.
  apply (times_loop_instants _ _ _ _ _ _ _ 0) in H
    as (new & -> & Hlen & Hk & Hend); [|reflexivity].
  simpl in *. done.
Qed.

Lemma sample_instants_witness :
  (Nat.iter 2 (fun i => i + 1)%float 0 * (1000 / 3) <? 1000)%float = true /\
  (Nat.iter 3 (fun i => i + 1)%float 0 * (1000 / 3) <? 1000)%float = false.
Proof.
  assert (times_loop 100 (1000 / 3) 1000 0 0 []
          = Some [0; 0x1.4d55555555555p+8; 0x1.4d55555555555p+9]%float) as H
    by (vm_compute; reflexivity).
  destruct (sample_instants _ _ _ _ _ H) as (_ & H1 & H2).
  split; [|exact H2].
  exact (proj2 (H1 2 _ eq_refl)).
Defined.

(** ** Entries without duration *)

Lemma nan_not_ltb (a b : float) : is_nan b = true -> (a <? b)%float = false.
Proof.
  intros Hb. destruct (a <? b)%float eqn:E; [|done].
  apply ltb_not_nan in E as [_ E]. congruence.
Qed.

Lemma nonpositive_duration_not_active (u : TimeUnit) (t : float) (e : entry) :
  (durn e <=? 0)%float = true -> active u t e = false.
Proof.
  intros Hd. unfold active.
  destruct (toMs u (start e) <=? t)%float eqn:Hle; [|done]. simpl.
  destruct (add_nonpos (start e) (durn e) Hd) as [Hn|Hs].
  - by apply nan_not_ltb, toMs_nan.
  - apply leb_not_ltb. eapply leb_trans; [|exact Hle].
    by apply toMs_mono.
Qed.

(** X11. An entry whose duration is not positive is never active:
    [frameTiming] returns it at no instant and [frameApply] makes no promise
    for it, whatever the rate and the delay. *)
Theorem instant_entry_is_never_framed (e : entry) (σ : state) :
  (durn e <=? 0)%float = true ->
  (forall t : float, exists l,
     frameTiming (Some t) σ = (Normal l, σ) /\ ~ In e l) /\
  (forall fuel fps t p pr,
     heap σ !! p = None ->
     heap (after (frameApply fuel fps t) σ) !! p = Some pr ->
     anim pr <> e).
Proof.
  intros Hd. split.
  - intros t. eexists. split; [apply frameTiming_eq|].
    rewrite filter_In, nonpositive_duration_not_active by done.
    by intros [_ ?].
  - intros fuel fps t p pr Hn Hl <-.
    destruct (frameApply_new_promise fuel fps t σ p pr Hn Hl)
      as (_ & _ & _ & H1 & H2 & _).
    pose proof (nonpositive_duration_not_active (timeUnit σ) (delay pr)
                  (anim pr) Hd) as H.
    unfold active in H. by rewrite H1, H2 in H.
Qed.

Lemma instant_entry_is_never_framed_witness :
  let σ := after (register {[ "X"%string := fn_f ]} None)
             (engine (Array [Entry "X" 2 (-1); anim_Y]) (Some "s"%string)) in
  exists l, frameTiming (Some 1500%float) σ = (Normal l, σ) /\
            ~ In (Entry "X" 2 (-1)) l.
Proof.
  intros σ.
  destruct (instant_entry_is_never_framed (Entry "X" 2 (-1)) σ) as [H _].
  - reflexivity.
  - exact (H 1500%float).
Defined.

(** ** A table shorter than a frame *)

Lemma mul_zero_l (x : float) :
  is_nan (0 * x) = true \/ (0 * x =? 0)%float = true.
Proof.
  rewrite is_nan_spec, FloatAxioms.eqb_spec, mul_spec.
  change (Prim2SF 0) with (S754_zero false).
  destruct (Prim2SF x) as [[]|[]| |[] m e]; auto.
Qed.

Lemma add_zero_not_lt (t z : float) :
  (z =? 0)%float = true -> (t <? t + z)%float = false.
Proof.
  rewrite FloatAxioms.eqb_spec, FloatAxioms.ltb_spec, add_spec.
  change (Prim2SF 0) with (S754_zero false).
  destruct (Prim2SF z) as [sz|[]| |[] mz ez]; try done. intros _.
  destruct (Prim2SF t) as [st|st| |st mt et]; cbn [SF64add SFadd].
  - by destruct st, sz.
  - by destruct st.
  - done.
  - unfold SFltb.
    by destruct (SFcompare_refl (S754_finite st mt et)) as [->|].
Qed.

(** X10. When the whole table ends within one increment (the largest
    [toMs(start + durn)] is at most [1000 / fps]), [frameApply] returns
    without scheduling anything: it computes at most the one sample instant
    [t], and its second loop stops before the last instant.  So it is for an
    empty table.  The state is unchanged. *)
Theorem frameApply_single_frame_is_noop (fuel : nat) (fps t : option float)
    (σ : state) :
  callbacks σ <> ∅ ->
  (or_default fps 10 <=? 0)%float = false ->
  ((total_durn (timeUnit σ) (timingInfo σ) <=? 1000 / or_default fps 10)%float
     = true ->
   frameApply (S (S fuel)) fps t σ = (Normal tt, σ)) /\
  (timingInfo σ = [] -> frameApply (S fuel) fps t σ = (Normal tt, σ)).
Proof.
  intros Hne Hf. split.
  - intros Hd. rewrite frameApply_eq by done. cbv zeta. rewrite Hf.
    set (increment := (1000 / or_default fps 10)%float) in *.
    set (durn := total_durn (timeUnit σ) (timingInfo σ)) in *.
    set (t' := toMs (timeUnit σ) (or_default t 0)).
    cbn [times_loop].
    destruct (0 * increment <? durn)%float eqn:E0; [|done].
    change (0 + 1)%float with 1%float.
    rewrite mul_1_l, (leb_not_ltb _ _ Hd). cbn [app].
    cbn [frames_loop]. unfold lt_last. cbn [last].
    destruct (mul_zero_l increment) as [Hn|Hz].
    { apply ltb_not_nan in E0 as [E0 _]. congruence. }
    by rewrite (add_zero_not_lt _ _ Hz).
  - intros Ht. rewrite frameApply_eq by done. cbv zeta.
    rewrite Hf, Ht. simpl. by rewrite mul_zero_not_lt_zero.
Qed.

Lemma frameApply_single_frame_is_noop_witness :
  frameApply 2 (Some 1%float) None engine_Y = (Normal tt, engine_Y) /\
  (let σ := after (register {[ "X"%string := fn_f ]} None)
                  (engine (Array []) None) in
   frameApply 1 (Some 25%float) (Some 3%float) σ = (Normal tt, σ)).
Proof.
  split.
  - apply (frameApply_single_frame_is_noop 0 (Some 1%float) None engine_Y).
    + vm_compute. discriminate.
    + reflexivity.
    + reflexivity.
  - intros σ.
    apply (frameApply_single_frame_is_noop 0 (Some 25%float) (Some 3%float) σ).
    + vm_compute. discriminate.
    + reflexivity.
    + reflexivity.
Defined.

(** ** The turns of the loops *)





